(** * go-caskdb: the disk-backed store and its in-memory sibling

    A shallow embedding of [disk_store.go] and [memory_store.go].  Go's
    [uint32] is a [Z] with the wrap-around written out, a [string] is a
    Rocq [string] (a sequence of 8-bit characters), a [[]byte] is a
    [list byte], a [map[string]KeyEntry] is a [gmap string KeyEntry], and
    an [*os.File] is an [option File] ([None] is the nil pointer). *)

From Stdlib Require Import ZArith Lia.
From Stdlib Require Import Strings.Byte.
From stdpp Require Import base option list gmap strings.

Local Open Scope Z_scope.

(* ================================================================== *)
(** * Machine integers and bytes *)

(** The conversion [uint32(x)]. *)
Definition uint32 (x : Z) : Z := x mod 2 ^ 32.

(** The conversion [byte(x)] of an integer, and back. *)
Definition byte_of_Z (x : Z) : byte :=
  default x00 (Byte.of_N (Z.to_N (x mod 256))).

Definition Z_of_byte (b : byte) : Z := Z.of_N (Byte.to_N b).

(** [len(s)] of a string and of a byte slice, as Go's [int]. *)
Definition len (s : string) : Z := Z.of_nat (String.length s).
Definition blen (b : list byte) : Z := Z.of_nat (length b).

(** The two byte orders of [encoding/binary]. *)
Inductive ByteOrder := LittleEndian | BigEndian.

(** [order.PutUint32(b, v)] on a fresh four-byte slice. *)
Definition PutUint32 (order : ByteOrder) (v : Z) : list byte :=
  match order with
  | LittleEndian =>
      [byte_of_Z v; byte_of_Z (v ≫ 8); byte_of_Z (v ≫ 16); byte_of_Z (v ≫ 24)]
  | BigEndian =>
      [byte_of_Z (v ≫ 24); byte_of_Z (v ≫ 16); byte_of_Z (v ≫ 8); byte_of_Z v]
  end.

(** [order.Uint32(b)]; [None] is the bounds-check panic on a short slice. *)
Definition Uint32 (order : ByteOrder) (b : list byte) : option Z :=
  match b with
  | b0 :: b1 :: b2 :: b3 :: _ =>
      Some match order with
           | LittleEndian =>
               Z.lor (Z_of_byte b0)
                 (Z.lor (Z_of_byte b1 ≪ 8)
                    (Z.lor (Z_of_byte b2 ≪ 16) (Z_of_byte b3 ≪ 24)))
           | BigEndian =>
               Z.lor (Z_of_byte b3)
                 (Z.lor (Z_of_byte b2 ≪ 8)
                    (Z.lor (Z_of_byte b1 ≪ 16) (Z_of_byte b0 ≪ 24)))
           end
  | _ => None
  end.

(** The slice expression [b[lo:hi]]; [None] is the run-time panic
    "slice bounds out of range". *)
Definition slice (b : list byte) (lo hi : Z) : option (list byte) :=
  if decide (0 ≤ lo ∧ lo ≤ hi ∧ hi ≤ blen b)
  then Some (take (Z.to_nat (hi - lo)) (drop (Z.to_nat lo) b))
  else None.

(* ================================================================== *)
(** * The record format *)

(** Modelled from the spec: the type [KeyEntry], whose declaration is not
    in the two source files.  It holds a 32-bit timestamp, the 32-bit byte
    offset of the record's start in the log and the 32-bit byte length of
    the encoded record. *)
Record KeyEntry := mkKeyEntry {
  Timestamp : Z;
  Position : Z;
  TotalSize : Z
}.

(** Modelled from the spec: the constructor [NewKeyEntry], called by
    [DiskStore.Set] with three [uint32] arguments. *)
Definition NewKeyEntry (timestamp position totalSize : Z) : KeyEntry :=
  mkKeyEntry timestamp position totalSize.

(** The zero value of [KeyEntry]. *)
Definition zeroKeyEntry : KeyEntry := mkKeyEntry 0 0 0.

(** Modelled from the spec: the size of the fixed header, three 32-bit
    unsigned integers. *)
Definition headerSize : Z := 12.

Section Codec.

Variable order : ByteOrder.

(** Modelled from the spec: [encodeKV], absent from the source files.
    It produces the header (timestamp, key length, value length, each a
    32-bit unsigned integer), then the raw key bytes, then the raw value
    bytes; [totalSize] is header size + key length + value length.  The
    spec leaves the byte order open, so it is the section variable; a
    length is stored through the conversion [uint32]. *)
Definition encodeKV (timestamp : Z) (key value : string) : Z * list byte :=
  let header :=
    PutUint32 order timestamp
      ++ PutUint32 order (uint32 (len key))
      ++ PutUint32 order (uint32 (len value)) in
  (headerSize + len key + len value,
   header ++ String.list_byte_of_string key ++ String.list_byte_of_string value).

(** Modelled from the spec: [decodeKV], absent from the source files.
    It reads the three header fields in the same order, then slices the
    remainder into a key segment of the declared key length and a value
    segment of the declared value length.  [None] is a run-time panic of
    a slice expression. *)
Definition decodeKV (data : list byte) : option (Z * string * string) :=
  timestamp ← slice data 0 4 ≫= Uint32 order;
  keySize ← slice data 4 8 ≫= Uint32 order;
  valueSize ← slice data 8 12 ≫= Uint32 order;
  key ← slice data headerSize (headerSize + keySize);
  value ← slice data (headerSize + keySize) (headerSize + keySize + valueSize);
  Some (timestamp, String.string_of_list_byte key, String.string_of_list_byte value).

End Codec.

(* ================================================================== *)
(** * Files *)

(** The errors the [os] package hands back. *)
Inductive error :=
  | ErrInvalid   (* a method called on a nil [*os.File] *)
  | ErrClosed    (* a method called on a closed file *)
  | EINVAL       (* a seek to a negative offset or a bad whence *)
  | EOF          (* a read at or past the end of the file *)
  | ErrCreate.   (* [os.Create] could not create the file *)

(** An open-file description: whether [Close] was called, the bytes of
    the underlying file, and the file offset that [Seek], [Read] and
    [Write] share ([os.Create] does not open in append mode). *)
Record File := mkFile {
  closed : bool;
  contents : list byte;
  cursor : Z
}.

(** Storing [b] at offset [at_]: the bytes before it are kept, a gap
    past the end is filled with zero bytes, the bytes under it are
    overwritten. *)
Definition pwrite (old : list byte) (at_ : Z) (b : list byte) : list byte :=
  let n := Z.to_nat at_ in
  take n old ++ replicate (n - length old)%nat x00 ++ b ++ drop (n + length b)%nat old.

(** [f.Write(b)]. *)
Definition file_Write (f : option File) (b : list byte)
  : option File * (Z * option error) :=
  match f with
  | None => (None, (0, Some ErrInvalid))
  | Some fl =>
      if closed fl then (f, (0, Some ErrClosed))
      else (Some (mkFile false (pwrite (contents fl) (cursor fl) b) (cursor fl + blen b)),
            (blen b, None))
  end.

(** [f.Seek(offset, whence)]. *)
Definition file_Seek (f : option File) (offset whence : Z)
  : option File * (Z * option error) :=
  match f with
  | None => (None, (0, Some ErrInvalid))
  | Some fl =>
      if closed fl then (f, (0, Some ErrClosed))
      else
        let target :=
          if decide (whence = 0) then Some offset
          else if decide (whence = 1) then Some (cursor fl + offset)
          else if decide (whence = 2) then Some (blen (contents fl) + offset)
          else None in
        match target with
        | Some t =>
            if decide (0 ≤ t) then (Some (mkFile false (contents fl) t), (t, None))
            else (f, (0, Some EINVAL))
        | None => (f, (0, Some EINVAL))
        end
  end.

(** [f.Read(buf)]: the file after the call, the buffer after the call,
    and the two results.  A read of an empty buffer succeeds with 0; a
    read with nothing left is [io.EOF]; otherwise the bytes available are
    copied to the front of the buffer, which may be fewer than asked. *)
Definition file_Read (f : option File) (buf : list byte)
  : option File * list byte * (Z * option error) :=
  match f with
  | None => (None, buf, (0, Some ErrInvalid))
  | Some fl =>
      if closed fl then (f, buf, (0, Some ErrClosed))
      else
        match buf with
        | [] => (f, buf, (0, None))
        | _ :: _ =>
            match take (length buf) (drop (Z.to_nat (cursor fl)) (contents fl)) with
            | [] => (f, buf, (0, Some EOF))
            | got =>
                (Some (mkFile false (contents fl) (cursor fl + blen got)),
                 got ++ drop (length got) buf,
                 (blen got, None))
            end
        end
  end.

(** [f.Close()]. *)
Definition file_Close (f : option File) : option File * option error :=
  match f with
  | None => (None, Some ErrInvalid)
  | Some fl =>
      if closed fl then (f, Some ErrClosed)
      else (Some (mkFile true (contents fl) (cursor fl)), None)
  end.

(** The part of the file system [os.Create] sees: the regular files by
    path, and the paths at which a file cannot be created (a missing
    directory, no permission, the path of a directory). *)
Record FileSystem := mkFileSystem {
  fs_files : gmap string (list byte);
  fs_denied : gset string
}.

(** [os.Create(name)]: create the file or truncate it to empty. *)
Definition os_Create (fs : FileSystem) (name : string)
  : option File * option error * FileSystem :=
  if decide (name ∈ fs_denied fs) then (None, Some ErrCreate, fs)
  else (Some (mkFile false [] 0), None,
        mkFileSystem (<[name := []]> (fs_files fs)) (fs_denied fs)).

(** [make([]byte, n)]. *)
Definition make_bytes (n : Z) : list byte := replicate (Z.to_nat n) x00.

(* ================================================================== *)
(** * DiskStore *)

Record DiskStore := mkDiskStore {
  file : option File;
  keyDir : gmap string KeyEntry;
  offset : Z
}.

(** What a call does: it returns, or it panics with a message. *)
Inductive outcome (A : Type) :=
  | Ret (a : A)
  | Panic (msg : string).
Arguments Ret {A} a.
Arguments Panic {A} msg.

(** [NewDiskStore(fileName)]: the pointer returned (never nil), the
    error, and the file system afterwards. *)
Definition NewDiskStore (fs : FileSystem) (fileName : string)
  : option DiskStore * option error * FileSystem :=
  let '(file, err, fs') := os_Create fs fileName in
  (Some (mkDiskStore file ∅ 0), err, fs').

(** [d.Close()]. *)
Definition DiskStore_Close (d : DiskStore) : DiskStore * bool :=
  let '(file', err) := file_Close (file d) in
  let d' := mkDiskStore file' (keyDir d) (offset d) in
  match err with
  | Some _ => (d', false)
  | None => (d', true)
  end.

Section Store.

Variable order : ByteOrder.

(** [d.Get(key)]: the store afterwards (the file offset moves) and the
    result. *)
Definition DiskStore_Get (d : DiskStore) (key : string)
  : DiskStore * outcome string :=
  match keyDir d !! key with
  | None => (d, Ret "")
  | Some keyInfo =>
      let byteArray := make_bytes (TotalSize keyInfo) in
      match file_Seek (file d) (Position keyInfo) 0 with
      | (_, (_, Some _)) => (d, Panic "Get() error during Seek")
      | (file1, (_, None)) =>
          match file_Read file1 byteArray with
          | (file2, _, (_, Some _)) =>
              (mkDiskStore file2 (keyDir d) (offset d),
               Panic "Get() error during Read")
          | (file2, byteArray', (_, None)) =>
              let d' := mkDiskStore file2 (keyDir d) (offset d) in
              match decodeKV order byteArray' with
              | None => (d', Panic "runtime error: slice bounds out of range")
              | Some (_, _, value) => (d', Ret value)
              end
          end
      end
  end.

(** The three statements of [Set] after the encoding, kept apart and in
    source order.  First [d.keyDir[key] = NewKeyEntry(ts, d.offset,
    uint32(totalSize))]. *)
Definition Set_keyDir (d : DiskStore) (key : string) (ts totalSize : Z)
  : DiskStore :=
  mkDiskStore (file d)
    (<[key := NewKeyEntry ts (offset d) (uint32 totalSize)]> (keyDir d))
    (offset d).

(** Then [d.offset += uint32(totalSize) + 1], in [uint32] arithmetic. *)
Definition Set_offset (d : DiskStore) (totalSize : Z) : DiskStore :=
  mkDiskStore (file d) (keyDir d)
    (uint32 (offset d + uint32 (uint32 totalSize + 1))).

(** Then [d.file.Write(byteArr)], both results dropped. *)
Definition Set_write (d : DiskStore) (byteArr : list byte) : DiskStore :=
  let '(file', _) := file_Write (file d) byteArr in
  mkDiskStore file' (keyDir d) (offset d).

(** [d.Set(key, value)]; [now] is what [time.Now().Unix()] returns. *)
Definition DiskStore_Set (d : DiskStore) (key value : string) (now : Z)
  : DiskStore :=
  let ts := uint32 now in
  let '(totalSize, byteArr) := encodeKV order ts key value in
  let d1 := Set_keyDir d key ts totalSize in
  let d2 := Set_offset d1 totalSize in
  Set_write d2 byteArr.

(** A caller's program: a sequence of calls on one store.  It stops at
    the first panic ([None]). *)
Inductive Op :=
  | OpSet (key value : string) (now : Z)
  | OpGet (key : string)
  | OpClose.

Definition step (d : DiskStore) (o : Op) : option DiskStore :=
  match o with
  | OpSet key value now => Some (DiskStore_Set d key value now)
  | OpGet key =>
      match DiskStore_Get d key with
      | (d', Ret _) => Some d'
      | (_, Panic _) => None
      end
  | OpClose => Some (DiskStore_Close d).1
  end.

Fixpoint run (d : DiskStore) (ops : list Op) : option DiskStore :=
  match ops with
  | [] => Some d
  | o :: ops' =>
      match step d o with
      | Some d' => run d' ops'
      | None => None
      end
  end.

(** The keys a program writes. *)
Fixpoint written (ops : list Op) : list string :=
  match ops with
  | [] => []
  | OpSet key _ _ :: ops' => key :: written ops'
  | _ :: ops' => written ops'
  end.

(** A run of [Set] calls only, each with its clock reading. *)
Definition SetAll (d : DiskStore) (ws : list (string * string * Z)) : DiskStore :=
  foldl (λ d w, DiskStore_Set d w.1.1 w.1.2 w.2) d ws.

End Store.

(** The size of the record [encodeKV] builds for a key and a value, and
    the distance the write cursor moves over a run of writes when it does
    not wrap. *)
Definition recordSize (key value : string) : Z :=
  headerSize + len key + len value.

Definition span (ws : list (string * string * Z)) : Z :=
  foldr (λ w acc, recordSize w.1.1 w.1.2 + 1 + acc) 0 ws.

(** A store as [NewDiskStore] returns it when the file was created. *)
Definition freshStore : DiskStore := mkDiskStore (Some (mkFile false [] 0)) ∅ 0.

(** Whether the store's file was closed: every call on the file then
    fails with [ErrClosed]. *)
Definition storeClosed (d : DiskStore) : bool :=
  match file d with
  | Some fl => closed fl
  | None => false
  end.

(** The bytes a run of [Set] calls hands to the file, record after
    record. *)
Definition logBytes (order : ByteOrder) (ws : list (string * string * Z)) : list byte :=
  foldr (λ w acc, (encodeKV order (uint32 w.2) w.1.1 w.1.2).2 ++ acc) [] ws.

(** The number of bytes in the store's file (0 when there is no file). *)
Definition logLength (d : DiskStore) : Z :=
  match file d with
  | Some fl => blen (contents fl)
  | None => 0
  end.

(** The file offset lies within the file. *)
Definition cursorInLog (d : DiskStore) : Prop :=
  match file d with
  | Some fl => 0 ≤ cursor fl ≤ blen (contents fl)
  | None => True
  end.

(** A string of [n] zero bytes, for inputs too long to write out. *)
Definition zeroString (n : Z) : string :=
  String.string_of_list_byte (replicate (Z.to_nat n) x00).

(* ================================================================== *)
(** * MemoryStore *)

Record MemoryStore := mkMemoryStore {
  data : gmap string KeyEntry
}.

Definition NewMemoryStore : MemoryStore := mkMemoryStore ∅.

(** [m.data[key]]: the zero value when the key is not in the map. *)
Definition MemoryStore_Get (m : MemoryStore) (key : string) : KeyEntry :=
  default zeroKeyEntry (data m !! key).

Definition MemoryStore_Set (m : MemoryStore) (key : string) (value : KeyEntry)
  : MemoryStore :=
  mkMemoryStore (<[key := value]> (data m)).

Definition MemoryStore_Close (m : MemoryStore) : bool := true.

(** A run of [Set] calls on a memory store. *)
Definition MemoryStore_SetAll (m : MemoryStore) (kvs : list (string * KeyEntry))
  : MemoryStore :=
  foldl (λ m kv, MemoryStore_Set m kv.1 kv.2) m kvs.

(* ================================================================== *)
(** * Bytes and 32-bit fields *)

Lemma Z_of_byte_range b : 0 ≤ Z_of_byte b < 256.
Proof.
  unfold Z_of_byte. pose proof (Byte.to_N_bounded b). lia.
Qed.

Lemma Z_of_byte_of_Z x : Z_of_byte (byte_of_Z x) = x mod 256.
Proof.
  unfold Z_of_byte, byte_of_Z.
  assert (Hr : 0 ≤ x mod 256 < 256) by (apply Z.mod_pos_bound; lia).
  destruct (Byte.of_N (Z.to_N (x mod 256))) as [b|] eqn:E.
  - apply Byte.to_of_N in E. simpl. rewrite E. lia.
  - apply Byte.of_N_None_iff in E. lia.
Qed.

(** Bit-level goals about the four bytes of a field: split on where the
    bit index falls. *)
Ltac bit_cases :=
  repeat match goal with
         | |- context [Z.ltb ?a ?b] => destruct (Z.ltb_spec a b)
         end;
  simpl; rewrite ?andb_false_r, ?orb_false_r; simpl;
  try reflexivity; try lia;
  repeat match goal with
         | |- context [Z.testbit _ ?i] => rewrite (Z.testbit_neg_r _ i) by lia
         end;
  simpl; rewrite ?andb_false_r, ?orb_false_r; simpl;
  rewrite ?Z.shiftr_spec by lia;
  try reflexivity; try (f_equal; lia).

Lemma Z_of_byte_mod b : Z_of_byte b = Z_of_byte b mod 2 ^ 8.
Proof. pose proof (Z_of_byte_range b). rewrite Z.mod_small; lia. Qed.

Lemma Uint32_PutUint32 order v : Uint32 order (PutUint32 order v) = Some (uint32 v).
Proof.
  destruct order; simpl; f_equal; rewrite !Z_of_byte_of_Z; unfold uint32;
    change 256 with (2 ^ 8);
    apply Z.bits_inj'; intros n Hn;
    rewrite ?Z.lor_spec, ?Z.shiftl_spec, ?Z.testbit_mod_pow2, ?Z.shiftr_spec by lia;
    bit_cases.
Qed.

Lemma Uint32_range order b x : Uint32 order b = Some x → 0 ≤ x < 2 ^ 32.
Proof.
  intros H.
  assert (Hx : x = x mod 2 ^ 32); [| rewrite Hx; apply Z.mod_pos_bound; lia].
  destruct b as [|b0 [|b1 [|b2 [|b3 b]]]]; try discriminate.
  injection H as <-.
  rewrite (Z_of_byte_mod b0), (Z_of_byte_mod b1), (Z_of_byte_mod b2), (Z_of_byte_mod b3).
  destruct order;
    apply Z.bits_inj'; intros n Hn;
    rewrite ?Z.lor_spec, ?Z.shiftl_spec, ?Z.testbit_mod_pow2, ?Z.lor_spec,
      ?Z.shiftl_spec, ?Z.testbit_mod_pow2 by lia;
    bit_cases.
Qed.

Lemma length_PutUint32 order v : length (PutUint32 order v) = 4%nat.
Proof. by destruct order. Qed.

Lemma length_list_byte_of_string s :
  length (String.list_byte_of_string s) = String.length s.
Proof.
  unfold String.list_byte_of_string. rewrite length_map.
  induction s as [|c s IH]; simpl; [done | by rewrite IH].
Qed.

Lemma length_string_of_list_byte b :
  String.length (String.string_of_list_byte b) = length b.
Proof.
  rewrite <- (String.list_byte_of_string_of_list_byte b) at 2.
  by rewrite length_list_byte_of_string.
Qed.

Lemma blen_app a b : blen (a ++ b) = blen a + blen b.
Proof. unfold blen. rewrite length_app. lia. Qed.

Lemma blen_nonneg b : 0 ≤ blen b.
Proof. unfold blen. lia. Qed.

Lemma len_nonneg s : 0 ≤ len s.
Proof. unfold len. lia. Qed.

Lemma slice_mid (a b c : list byte) lo hi :
  lo = blen a → hi = lo + blen b → slice (a ++ b ++ c) lo hi = Some b.
Proof.
  intros -> ->. unfold slice.
  rewrite decide_True.
  - f_equal. unfold blen.
    replace (Z.to_nat (Z.of_nat (length a) + Z.of_nat (length b) - Z.of_nat (length a)))
      with (length b) by lia.
    rewrite Nat2Z.id, drop_app_length, take_app_length. done.
  - rewrite !blen_app. pose proof (blen_nonneg a). pose proof (blen_nonneg b).
    pose proof (blen_nonneg c). lia.
Qed.

Lemma slice_length b lo hi s : slice b lo hi = Some s → blen s = hi - lo.
Proof.
  unfold slice. case_decide as Hc; [|done]. intros [= <-].
  unfold blen in *. rewrite length_take, length_drop. lia.
Qed.

Section CodecRoundTrip.
Variable order : ByteOrder.

Lemma encodeKV_totalSize t k v : (encodeKV order t k v).1 = recordSize k v.
Proof. done. Qed.

Lemma encodeKV_length t k v : blen (encodeKV order t k v).2 = recordSize k v.
Proof.
  unfold encodeKV, recordSize, headerSize, len. simpl. rewrite !blen_app. unfold blen.
  rewrite !length_PutUint32, !length_list_byte_of_string. lia.
Qed.

Lemma decodeKV_encodeKV t k v :
  0 ≤ t < 2 ^ 32 → len k < 2 ^ 32 → len v < 2 ^ 32 →
  decodeKV order (encodeKV order t k v).2 = Some (t, k, v).
Proof.
  intros Ht Hk Hv. unfold encodeKV. simpl.
  set (h1 := PutUint32 order t).
  set (h2 := PutUint32 order (uint32 (len k))).
  set (h3 := PutUint32 order (uint32 (len v))).
  set (kb := String.list_byte_of_string k).
  set (vb := String.list_byte_of_string v).
  assert (L1 : blen h1 = 4) by (unfold blen, h1; by rewrite length_PutUint32).
  assert (L2 : blen h2 = 4) by (unfold blen, h2; by rewrite length_PutUint32).
  assert (L3 : blen h3 = 4) by (unfold blen, h3; by rewrite length_PutUint32).
  assert (Lk : blen kb = len k)
    by (unfold blen, kb, len; by rewrite length_list_byte_of_string).
  assert (Lv : blen vb = len v)
    by (unfold blen, vb, len; by rewrite length_list_byte_of_string).
  pose proof (len_nonneg k). pose proof (len_nonneg v).
  assert (Uk : uint32 (len k) = len k) by (unfold uint32; apply Z.mod_small; lia).
  assert (Uv : uint32 (len v) = len v) by (unfold uint32; apply Z.mod_small; lia).
  assert (Ut : uint32 t = t) by (unfold uint32; apply Z.mod_small; lia).
  remember ((h1 ++ h2 ++ h3) ++ kb ++ vb) as data eqn:Hd.
  assert (S1 : slice data 0 4 = Some h1).
  { subst data. rewrite <- !app_assoc.
    apply (slice_mid [] h1 (h2 ++ h3 ++ kb ++ vb)); [done | lia]. }
  assert (S2 : slice data 4 8 = Some h2).
  { subst data. rewrite <- !app_assoc.
    apply (slice_mid h1 h2 (h3 ++ kb ++ vb)); lia. }
  assert (S3 : slice data 8 12 = Some h3).
  { subst data. rewrite <- !app_assoc.
    replace (h1 ++ h2 ++ h3 ++ kb ++ vb) with ((h1 ++ h2) ++ h3 ++ kb ++ vb)
      by (by rewrite <- !app_assoc).
    apply slice_mid; rewrite ?blen_app; lia. }
  assert (S4 : slice data headerSize (headerSize + len k) = Some kb).
  { subst data. apply slice_mid; rewrite ?blen_app; unfold headerSize; lia. }
  assert (S5 : slice data (headerSize + len k) (headerSize + len k + len v) = Some vb).
  { subst data.
    replace ((h1 ++ h2 ++ h3) ++ kb ++ vb) with (((h1 ++ h2 ++ h3) ++ kb) ++ vb ++ [])
      by (by rewrite app_nil_r, <- !app_assoc).
    apply slice_mid; rewrite ?blen_app; unfold headerSize; lia. }
  unfold decodeKV. rewrite S1, S2, S3. simpl.
  unfold h1, h2, h3. rewrite !Uint32_PutUint32. simpl.
  rewrite Ut, !Uk, !Uv, S4, S5. simpl.
  unfold kb, vb. by rewrite !String.string_of_list_byte_of_string.
Qed.

Lemma decodeKV_bounds data t k v :
  decodeKV order data = Some (t, k, v) →
  0 ≤ t < 2 ^ 32 ∧ len k < 2 ^ 32 ∧ len v < 2 ^ 32.
Proof.
  unfold decodeKV. intros H.
  destruct (slice data 0 4 ≫= Uint32 order) as [ts|] eqn:E1; [|done].
  destruct (slice data 4 8 ≫= Uint32 order) as [ks|] eqn:E2; [|done].
  destruct (slice data 8 12 ≫= Uint32 order) as [vs|] eqn:E3; [|done].
  simpl in H.
  destruct (slice data headerSize (headerSize + ks)) as [kb|] eqn:E4; [|done].
  destruct (slice data (headerSize + ks) (headerSize + ks + vs)) as [vb|] eqn:E5; [|done].
  simpl in H. injection H as <- <- <-.
  apply bind_Some in E1 as (? & _ & E1). apply Uint32_range in E1.
  apply bind_Some in E2 as (? & _ & E2). apply Uint32_range in E2.
  apply bind_Some in E3 as (? & _ & E3). apply Uint32_range in E3.
  apply slice_length in E4, E5.
  unfold len. rewrite !length_string_of_list_byte. unfold blen in *. lia.
Qed.
End CodecRoundTrip.

(* ================================================================== *)
(** * What one Set does *)

Section SetFacts.
Variable order : ByteOrder.

Lemma Set_keyDir_eq d key value now :
  keyDir (DiskStore_Set order d key value now)
  = <[key := NewKeyEntry (uint32 now) (offset d) (uint32 (recordSize key value))]> (keyDir d).
Proof.
  unfold DiskStore_Set, encodeKV, Set_write. simpl.
  by destruct (file_Write _ _).
Qed.

Lemma Set_offset_eq d key value now :
  offset (DiskStore_Set order d key value now)
  = uint32 (offset d + uint32 (uint32 (recordSize key value) + 1)).
Proof.
  unfold DiskStore_Set, encodeKV, Set_write. simpl.
  by destruct (file_Write _ _).
Qed.

Lemma Set_file_eq d key value now :
  file (DiskStore_Set order d key value now)
  = (file_Write (file d) (encodeKV order (uint32 now) key value).2).1.
Proof.
  unfold DiskStore_Set, encodeKV, Set_write. simpl.
  by destruct (file_Write _ _).
Qed.

Lemma uint32_advance o n : uint32 (o + uint32 (uint32 n + 1)) = (o + n + 1) mod 2 ^ 32.
Proof.
  unfold uint32.
  rewrite (Z.add_mod_idemp_l n 1) by lia.
  rewrite Z.add_mod_idemp_r by lia. f_equal. lia.
Qed.

Lemma uint32_small x : 0 ≤ x < 2 ^ 32 → uint32 x = x.
Proof. intros. unfold uint32. by apply Z.mod_small. Qed.

Lemma recordSize_pos key value : headerSize ≤ recordSize key value.
Proof.
  unfold recordSize. pose proof (len_nonneg key). pose proof (len_nonneg value). lia.
Qed.

Lemma pwrite_at_end old b : pwrite old (blen old) b = old ++ b.
Proof.
  unfold pwrite, blen. rewrite Nat2Z.id.
  rewrite firstn_all, Nat.sub_diag. simpl.
  rewrite drop_ge by lia. by rewrite app_nil_r.
Qed.

End SetFacts.

(* ================================================================== *)
(** * Runs of Set on a new store *)

Section TwoWrites.
Variable order : ByteOrder.

Lemma file_Write_append c b :
  file_Write (Some (mkFile false c (blen c))) b
  = (Some (mkFile false (c ++ b) (blen c + blen b)), (blen b, None)).
Proof. unfold file_Write. cbn [closed contents cursor]. by rewrite pwrite_at_end. Qed.

Lemma Set_fresh_file key value now :
  file (DiskStore_Set order freshStore key value now)
  = Some (mkFile false (encodeKV order (uint32 now) key value).2 (recordSize key value)).
Proof.
  rewrite Set_file_eq. unfold freshStore. cbn [file].
  change (mkFile false [] 0) with (mkFile false [] (blen [])).
  rewrite file_Write_append. cbn [fst app].
  change (blen []) with 0. by rewrite Z.add_0_l, encodeKV_length.
Qed.

Lemma Set_Set_fresh_file k1 v1 n1 k2 v2 n2 :
  file (DiskStore_Set order (DiskStore_Set order freshStore k1 v1 n1) k2 v2 n2)
  = Some (mkFile false
            ((encodeKV order (uint32 n1) k1 v1).2 ++ (encodeKV order (uint32 n2) k2 v2).2)
            (recordSize k1 v1 + recordSize k2 v2)).
Proof.
  rewrite Set_file_eq, Set_fresh_file.
  rewrite <- (encodeKV_length order (uint32 n1) k1 v1) at 1.
  rewrite file_Write_append. cbn [fst]. by rewrite !encodeKV_length.
Qed.

(** The second record of a new store starts where the first one ends,
    but its entry points one byte further. *)
Lemma second_entry_off_by_one k1 v1 n1 k2 v2 n2 :
  recordSize k1 v1 + 1 < 2 ^ 32 →
  let d := DiskStore_Set order (DiskStore_Set order freshStore k1 v1 n1) k2 v2 n2 in
  Position <$> keyDir d !! k2 = Some (recordSize k1 v1 + 1)
  ∧ ∃ fl, file d = Some fl
      ∧ slice (contents fl) (recordSize k1 v1) (recordSize k1 v1 + recordSize k2 v2)
        = Some (encodeKV order (uint32 n2) k2 v2).2.
Proof.
  intros Hs d. subst d. pose proof (recordSize_pos k1 v1) as Hp.
  unfold headerSize in Hp. split.
  - rewrite Set_keyDir_eq, lookup_insert_eq, Set_offset_eq, uint32_advance.
    cbn [fmap option_fmap option_map Position NewKeyEntry].
    change (offset freshStore) with 0. by rewrite Z.mod_small by lia.
  - rewrite Set_Set_fresh_file. eexists. split; [done|]. cbn [contents].
    rewrite <- (app_nil_r (_ ++ _)), <- app_assoc.
    apply slice_mid; by rewrite encodeKV_length.
Qed.

Lemma span_app ws1 ws2 : span (ws1 ++ ws2) = span ws1 + span ws2.
Proof.
  unfold span. induction ws1 as [|w ws1 IH]; simpl; [done|].
  fold (span (ws1 ++ ws2)) (span ws1) (span ws2) in *. lia.
Qed.

Lemma span_nonneg ws : 0 ≤ span ws.
Proof.
  unfold span. induction ws as [|[[k v] n] ws IH]; simpl; [done|].
  pose proof (recordSize_pos k v). unfold headerSize in *. lia.
Qed.

Lemma SetAll_cons d w ws :
  SetAll order d (w :: ws) = SetAll order (DiskStore_Set order d w.1.1 w.1.2 w.2) ws.
Proof. done. Qed.

Lemma span_cons k v n ws : span ((k, v, n) :: ws) = recordSize k v + 1 + span ws.
Proof. done. Qed.

Lemma Set_offset_no_wrap d key value now :
  0 ≤ offset d → offset d + recordSize key value + 1 < 2 ^ 32 →
  offset (DiskStore_Set order d key value now) = offset d + recordSize key value + 1.
Proof.
  intros H0 H1. rewrite Set_offset_eq, uint32_advance.
  pose proof (recordSize_pos key value). unfold headerSize in *.
  apply Z.mod_small. lia.
Qed.

Lemma SetAll_keyDir_other d ws key :
  key ∉ ws.*1.*1 → keyDir (SetAll order d ws) !! key = keyDir d !! key.
Proof.
  revert d. induction ws as [|[[k v] n] ws IH]; intros d Hk; [done|].
  rewrite SetAll_cons. cbn [fst snd]. rewrite !fmap_cons in Hk. cbn [fst] in Hk.
  apply not_elem_of_cons in Hk as [Hne Hk].
  rewrite IH by done. rewrite Set_keyDir_eq. by rewrite lookup_insert_ne.
Qed.

Lemma SetAll_entry d ws i key value now :
  0 ≤ offset d → offset d + span ws < 2 ^ 32 → NoDup ws.*1.*1 →
  ws !! i = Some (key, value, now) →
  keyDir (SetAll order d ws) !! key
  = Some (NewKeyEntry (uint32 now) (offset d + span (take i ws)) (recordSize key value)).
Proof.
  revert d i. induction ws as [|[[k v] n] ws IH]; intros d i H0 Hs Hnd Hi; [done|].
  rewrite SetAll_cons. cbn [fst snd].
  rewrite !fmap_cons in Hnd. cbn [fst] in Hnd. apply NoDup_cons in Hnd as [Hk Hnd].
  rewrite span_cons in Hs. pose proof (span_nonneg ws).
  pose proof (recordSize_pos k v). unfold headerSize in *.
  destruct i as [|i].
  - injection Hi as -> -> ->.
    rewrite SetAll_keyDir_other by done.
    rewrite Set_keyDir_eq, lookup_insert_eq. cbn [take].
    change (span []) with 0.
    by rewrite Z.add_0_r, (uint32_small (recordSize key value)) by lia.
  - cbn [lookup list_lookup] in Hi.
    rewrite (IH _ i); [| | |done|done].
    + rewrite Set_offset_no_wrap by lia. cbn [take]. rewrite span_cons.
      do 2 f_equal. lia.
    + rewrite Set_offset_no_wrap by lia. lia.
    + rewrite Set_offset_no_wrap by lia. lia.
Qed.

End TwoWrites.

Lemma len_zeroString n : 0 ≤ n → len (zeroString n) = n.
Proof.
  intros Hn. unfold len, zeroString.
  rewrite length_string_of_list_byte, length_replicate. lia.
Qed.

(* ================================================================== *)
(** * Get, and programs of calls *)

Section GetFacts.
Variable order : ByteOrder.

Lemma Get_absent d key :
  keyDir d !! key = None → DiskStore_Get order d key = (d, Ret "").
Proof. intros H. unfold DiskStore_Get. by rewrite H. Qed.

Lemma Get_keyDir d key : keyDir (DiskStore_Get order d key).1 = keyDir d.
Proof.
  unfold DiskStore_Get. destruct (keyDir d !! key) as [e|]; [|done].
  destruct (file_Seek _ _ _) as [f1 [n1 [e1|]]]; [done|].
  destruct (file_Read _ _) as [[f2 b2] [n2 [e2|]]]; [done|].
  by destruct (decodeKV _ _) as [[[? ?] ?]|].
Qed.

Lemma Close_keyDir d : keyDir (DiskStore_Close d).1 = keyDir d.
Proof.
  unfold DiskStore_Close. destruct (file_Close _) as [f [e|]]; done.
Qed.

Lemma step_keyDir_other d o d' key :
  step order d o = Some d' → key ∉ written [o] → keyDir d' !! key = keyDir d !! key.
Proof.
  destruct o as [k v n|k|]; simpl; intros Hs Hk.
  - injection Hs as <-. rewrite Set_keyDir_eq.
    apply lookup_insert_ne. set_solver.
  - pose proof (Get_keyDir d k) as Hg.
    destruct (DiskStore_Get order d k) as [d1 [r|m]]; [|done].
    injection Hs as <-. simpl in Hg. by rewrite Hg.
  - injection Hs as <-. by rewrite Close_keyDir.
Qed.

Lemma written_cons o ops : written (o :: ops) = written [o] ++ written ops.
Proof. by destruct o. Qed.

Lemma run_keyDir_other d ops d' key :
  run order d ops = Some d' → key ∉ written ops → keyDir d' !! key = keyDir d !! key.
Proof.
  revert d. induction ops as [|o ops IH]; intros d Hr Hk.
  - by injection Hr as <-.
  - simpl in Hr. rewrite written_cons in Hk.
    apply not_elem_of_app in Hk as [Ho Hk].
    destruct (step order d o) as [d1|] eqn:Hs; [|done].
    rewrite (IH d1) by done. by apply (step_keyDir_other d o).
Qed.

Lemma NewDiskStore_inv fs fileName d err fs' :
  NewDiskStore fs fileName = (Some d, err, fs') →
  keyDir d = ∅ ∧ offset d = 0
  ∧ (err = None → d = freshStore).
Proof.
  unfold NewDiskStore, os_Create. case_decide; intros [= <- <- <-]; by repeat split.
Qed.

Lemma make_bytes_length n : 0 ≤ n → blen (make_bytes n) = n.
Proof. intros. unfold blen, make_bytes. rewrite length_replicate. lia. Qed.

(** Reading a whole file from offset 0 into a buffer of its size. *)
Lemma file_Read_whole c buf :
  c ≠ [] → length buf = length c →
  file_Read (Some (mkFile false c 0)) buf
  = (Some (mkFile false c (blen c)), c, (blen c, None)).
Proof.
  intros Hc Hl. unfold file_Read. cbn [closed contents cursor].
  destruct buf as [|b0 buf]; [by destruct c|].
  change (Z.to_nat 0) with 0%nat. rewrite drop_0, Hl, firstn_all.
  destruct c as [|c0 c]; [done|].
  rewrite <- Hl, drop_all, app_nil_r. by rewrite Z.add_0_l.
Qed.

Lemma Get_after_first_Set key value now :
  recordSize key value < 2 ^ 32 →
  (DiskStore_Get order (DiskStore_Set order freshStore key value now) key).2 = Ret value.
Proof.
  intros Hs.
  pose proof (recordSize_pos key value) as Hp. unfold headerSize in Hp.
  pose proof (len_nonneg key). pose proof (len_nonneg value).
  assert (Hk : len key < 2 ^ 32 ∧ len value < 2 ^ 32)
    by (unfold recordSize, headerSize in *; lia).
  unfold DiskStore_Get.
  rewrite Set_keyDir_eq, lookup_insert_eq, Set_fresh_file.
  cbn [Position TotalSize NewKeyEntry].
  change (offset freshStore) with 0.
  rewrite (uint32_small (recordSize key value)) by lia.
  unfold file_Seek. cbn [closed contents cursor].
  rewrite decide_True by done. rewrite decide_True by done.
  set (bytes := (encodeKV order (uint32 now) key value).2).
  assert (Hb : blen bytes = recordSize key value) by apply encodeKV_length.
  rewrite file_Read_whole.
  - unfold bytes. rewrite decodeKV_encodeKV; [done| |lia|lia].
    unfold uint32. apply Z.mod_pos_bound. lia.
  - intros E. rewrite E in Hb. change (blen []) with 0 in Hb. lia.
  - pose proof (make_bytes_length (recordSize key value)). unfold blen in *. lia.
Qed.

(** ** After Close *)

Lemma Close_true_closed d d1 : DiskStore_Close d = (d1, true) → storeClosed d1 = true.
Proof.
  unfold DiskStore_Close, file_Close, storeClosed.
  destruct (file d) as [fl|]; [|done].
  destruct (closed fl) eqn:E; [done|]. by intros [= <-].
Qed.

Lemma Set_closed d key value now :
  storeClosed d = true →
  file (DiskStore_Set order d key value now) = file d
  ∧ (file_Write (file d) (encodeKV order (uint32 now) key value).2).2
      = (0, Some ErrClosed).
Proof.
  unfold storeClosed. intros H. rewrite Set_file_eq. unfold file_Write.
  destruct (file d) as [fl|]; [|done]. by rewrite H.
Qed.

Lemma Get_closed d key :
  storeClosed d = true →
  DiskStore_Get order d key
  = (d, match keyDir d !! key with
        | Some _ => Panic "Get() error during Seek"
        | None => Ret ""
        end).
Proof.
  unfold storeClosed, DiskStore_Get. intros H.
  destruct (keyDir d !! key) as [e|]; [|done].
  unfold file_Seek. destruct (file d) as [fl|]; [|done]. by rewrite H.
Qed.

Lemma Close_closed d : storeClosed d = true → DiskStore_Close d = (d, false).
Proof.
  unfold storeClosed, DiskStore_Close, file_Close. intros H.
  destruct d as [[fl|] kd o]; [|done]. simpl in *. by rewrite H.
Qed.

Lemma step_closed d o d' :
  storeClosed d = true → step order d o = Some d' → storeClosed d' = true.
Proof.
  intros Hc. destruct o as [k v n|k|]; simpl.
  - intros [= <-]. unfold storeClosed in *.
    by rewrite (proj1 (Set_closed d k v n Hc)).
  - rewrite Get_closed by done. destruct (keyDir d !! k); [done|]. by intros [= <-].
  - rewrite Close_closed by done. by intros [= <-].
Qed.

Lemma run_closed d ops d' :
  storeClosed d = true → run order d ops = Some d' → storeClosed d' = true.
Proof.
  revert d. induction ops as [|o ops IH]; intros d Hc Hr.
  - by injection Hr as <-.
  - simpl in Hr. destruct (step order d o) as [d1|] eqn:Hs; [|done].
    apply (IH d1); [|done]. by apply (step_closed d o).
Qed.

End GetFacts.

(* ================================================================== *)
(** * A run of Set on a memory store *)

Lemma MemoryStore_SetAll_other m kvs key :
  key ∉ kvs.*1 → data (MemoryStore_SetAll m kvs) !! key = data m !! key.
Proof.
  revert m. induction kvs as [|[k e] kvs IH]; intros m Hk; [done|].
  rewrite fmap_cons in Hk. apply not_elem_of_cons in Hk as [Hne Hk].
  unfold MemoryStore_SetAll in *. cbn [foldl]. rewrite IH by done.
  cbn. by apply lookup_insert_ne.
Qed.

(* ================================================================== *)
(** * The properties of the store *)

(** ** The record codec *)

(** C1 (as amended).  For every 32-bit timestamp [t] and all keys and
    values whose lengths fit the 32-bit length fields of the header,
    whatever bytes they hold, decoding the encoding gives back the
    inputs, and the size [encodeKV] reports is the number of bytes it
    produced. *)
Theorem codec_round_trip order t k v :
  0 ≤ t < 2 ^ 32 → len k < 2 ^ 32 → len v < 2 ^ 32 →
  decodeKV order (encodeKV order t k v).2 = Some (t, k, v)
  ∧ (encodeKV order t k v).1 = blen (encodeKV order t k v).2.
Proof.
  intros Ht Hk Hv. split.
  - by apply decodeKV_encodeKV.
  - by rewrite encodeKV_length.
Qed.

Lemma codec_round_trip_witness :
  (0 ≤ 1700000000 < 2 ^ 32 ∧ len "key" < 2 ^ 32 ∧ len "" < 2 ^ 32)
  ∧ decodeKV BigEndian (encodeKV BigEndian 1700000000 "key" "").2
      = Some (1700000000, "key", "")
  ∧ (encodeKV BigEndian 1700000000 "key" "").1
      = blen (encodeKV BigEndian 1700000000 "key" "").2.
Proof.
  assert (H1 : 0 ≤ 1700000000 < 2 ^ 32) by lia.
  assert (H2 : len "key" < 2 ^ 32) by reflexivity.
  assert (H3 : len "" < 2 ^ 32) by reflexivity.
  split; [by repeat split|].
  exact (codec_round_trip BigEndian 1700000000 "key" "" H1 H2 H3).
Defined.

(** A key of 2^32 bytes does not survive the round trip, in either byte
    order: the header has no room for its length. *)
Lemma round_trip_fails_at_4GiB_key :
  decodeKV LittleEndian (encodeKV LittleEndian 0 (zeroString (2 ^ 32)) "").2
    ≠ Some (0, zeroString (2 ^ 32), "")
  ∧ decodeKV BigEndian (encodeKV BigEndian 0 (zeroString (2 ^ 32)) "").2
    ≠ Some (0, zeroString (2 ^ 32), "").
Proof.
  split; intros H; apply decodeKV_bounds in H as (_ & Hk & _);
    rewrite len_zeroString in Hk; lia.
Qed.

(** ** Set *)

(** C7.  Every [Set] records the write cursor as the position of the new
    entry, then advances the cursor (a [uint32]) by the length of the
    encoded bytes plus one, and hands exactly the encoded bytes to the
    file's [Write]: on an open file all of them are written at the file
    offset, which moves by their length only, so the byte the cursor
    reserves is never written. *)
Theorem Set_cursor_arithmetic order d key value now :
  let byteArr := (encodeKV order (uint32 now) key value).2 in
  let d' := DiskStore_Set order d key value now in
  Position <$> keyDir d' !! key = Some (offset d)
  ∧ offset d' = (offset d + blen byteArr + 1) mod 2 ^ 32
  ∧ file d' = (file_Write (file d) byteArr).1
  ∧ ∀ fl, file d = Some fl → closed fl = false →
      (file_Write (file d) byteArr).2 = (blen byteArr, None)
      ∧ ∃ fl', file d' = Some fl'
          ∧ closed fl' = false
          ∧ cursor fl' = cursor fl + blen byteArr
          ∧ contents fl' = pwrite (contents fl) (cursor fl) byteArr
          ∧ (cursor fl = blen (contents fl) →
               contents fl' = contents fl ++ byteArr
               ∧ blen (contents fl') = blen (contents fl) + blen byteArr).
Proof.
  intros byteArr d'. subst d'. split; [|split; [|split]].
  - by rewrite Set_keyDir_eq, lookup_insert_eq.
  - rewrite Set_offset_eq, uint32_advance. unfold byteArr.
    by rewrite encodeKV_length.
  - apply Set_file_eq.
  - intros fl Hf Hc. rewrite Set_file_eq. fold byteArr.
    rewrite Hf. unfold file_Write. rewrite Hc. cbn [fst snd]. split; [done|].
    eexists. split; [done|]. cbn [closed cursor contents].
    repeat split; try done.
    + by rewrite H, pwrite_at_end.
    + by rewrite H, pwrite_at_end, blen_app.
Qed.

Lemma Set_cursor_arithmetic_witness :
  let d := DiskStore_Set LittleEndian freshStore "a" "1" 1700000000 in
  let d' := DiskStore_Set LittleEndian d "b" "2" 1700000001 in
  Position <$> keyDir d' !! "b" = Some 15
  ∧ offset d' = 30
  ∧ ∃ fl', file d' = Some fl' ∧ cursor fl' = 28 ∧ blen (contents fl') = 28.
Proof.
  intros d d'.
  destruct (Set_cursor_arithmetic LittleEndian d "b" "2" 1700000001)
    as (Hp & Ho & _ & Hw).
  split; [exact Hp|]. split; [exact Ho|].
  destruct (Hw (mkFile false (encodeKV LittleEndian (uint32 1700000000) "a" "1").2 14)
              eq_refl eq_refl) as (_ & fl' & Hf & _ & Hc & _ & Happ).
  exists fl'. split; [exact Hf|]. split; [exact Hc|].
  destruct (Happ eq_refl) as [_ Hl]. exact Hl.
Defined.

(** C8.  [Set] is not atomic on a write failure.  The key directory
    entry and the write cursor are those of the two in-memory statements
    alone, whatever the file does, and the result of [Write] is dropped;
    when the write fails, the file is as it was while the entry and the
    cursor have changed. *)
Theorem Set_not_atomic order d key value now :
  let byteArr := (encodeKV order (uint32 now) key value).2 in
  let d' := DiskStore_Set order d key value now in
  let mem := Set_offset (Set_keyDir d key (uint32 now) (recordSize key value))
               (recordSize key value) in
  (keyDir d' = keyDir mem ∧ offset d' = offset mem)
  ∧ keyDir d' !! key
      = Some (NewKeyEntry (uint32 now) (offset d) (uint32 (recordSize key value)))
  ∧ offset d' = (offset d + recordSize key value + 1) mod 2 ^ 32
  ∧ ∀ err, (file_Write (file d) byteArr).2.2 = Some err →
      file d' = file d
      ∧ keyDir d' !! key
          = Some (NewKeyEntry (uint32 now) (offset d) (uint32 (recordSize key value)))
      ∧ offset d' = (offset d + recordSize key value + 1) mod 2 ^ 32.
Proof.
  intros byteArr d' mem. subst d' mem.
  rewrite Set_keyDir_eq, Set_offset_eq, Set_file_eq, lookup_insert_eq, uint32_advance.
  fold byteArr. simpl. rewrite uint32_advance.
  repeat split; try done.
  unfold file_Write in *. destruct (file d) as [fl|]; [|done].
  by destruct (closed fl).
Qed.

Lemma Set_not_atomic_witness :
  let d := (DiskStore_Close (DiskStore_Set LittleEndian freshStore "a" "1" 1700000000)).1 in
  let d' := DiskStore_Set LittleEndian d "b" "2" 1700000001 in
  (file_Write (file d) (encodeKV LittleEndian (uint32 1700000001) "b" "2").2).2.2
    = Some ErrClosed
  ∧ file d' = file d
  ∧ keyDir d' !! "b" = Some (NewKeyEntry 1700000001 15 14)
  ∧ offset d' = 30.
Proof.
  split; [reflexivity|].
  pose proof (Set_not_atomic LittleEndian
    (DiskStore_Close (DiskStore_Set LittleEndian freshStore "a" "1" 1700000000)).1
    "b" "2" 1700000001) as (_ & _ & _ & H).
  destruct (H ErrClosed eq_refl) as (Hf & Hk & Ho).
  split; [exact Hf|]. split; [exact Hk | exact Ho].
Defined.

(** ** Two writes *)

(** C2, on the store after [Set("a","1"); Set("a","2")].  The entry for
    "a" carries the time and size of the second write but position 15,
    the second record lies at bytes 14 to 28 of the file, and [Get("a")]
    does not return "2": it dies in the decoder, which reads the record
    one byte off. *)
Theorem Get_after_overwrite order now1 now2 :
  let d := DiskStore_Set order (DiskStore_Set order freshStore "a" "1" now1) "a" "2" now2 in
  keyDir d !! "a" = Some (NewKeyEntry (uint32 now2) 15 14)
  ∧ (∃ fl, file d = Some fl
       ∧ slice (contents fl) 14 28 = Some (encodeKV order (uint32 now2) "a" "2").2)
  ∧ (DiskStore_Get order d "a").2 = Panic "runtime error: slice bounds out of range".
Proof.
  intros d. subst d. split; [|split].
  - by rewrite Set_keyDir_eq, lookup_insert_eq, Set_offset_eq.
  - rewrite Set_Set_fresh_file. eexists. split; [done|]. cbn [contents].
    rewrite <- (app_nil_r (_ ++ _)), <- app_assoc.
    apply slice_mid; by rewrite encodeKV_length.
  - unfold DiskStore_Get.
    rewrite Set_keyDir_eq, lookup_insert_eq, Set_offset_eq, Set_Set_fresh_file.
    destruct order; vm_compute; reflexivity.
Qed.

(** C5, on the store after [Set("a","1"); Set("b","2")].  The file holds
    28 bytes, the entry for "b" has position 15 and size 14, and so ends
    at 29, past the end of the log. *)
Theorem keyDir_bound_after_two_Sets order now1 now2 :
  let d := DiskStore_Set order (DiskStore_Set order freshStore "a" "1" now1) "b" "2" now2 in
  ∃ fl e,
    file d = Some fl ∧ closed fl = false ∧ blen (contents fl) = 28
    ∧ keyDir d !! "b" = Some e ∧ Position e = 15 ∧ TotalSize e = 14
    ∧ blen (contents fl) < Position e + TotalSize e.
Proof.
  intros d. subst d.
  rewrite Set_Set_fresh_file, Set_keyDir_eq, lookup_insert_eq, Set_offset_eq.
  eexists _, _. split; [done|]. cbn [closed contents].
  rewrite blen_app, !encodeKV_length.
  by repeat split.
Qed.

(** ** Runs of writes *)

(** C6 (as amended).  After any run of [Set] calls with distinct keys on
    a store just returned by [NewDiskStore], as long as the write cursor
    has not wrapped (the sizes of the records written, plus one each,
    sum to less than 2^32), the position stored for the later key of two
    consecutive writes is the end of the earlier entry plus one, hence
    strictly greater than that end. *)
Theorem monotonic_placement_no_wrap order fs fileName d err fs' ws i k1 v1 n1 k2 v2 n2 :
  NewDiskStore fs fileName = (Some d, err, fs') →
  NoDup ws.*1.*1 →
  span ws < 2 ^ 32 →
  ws !! i = Some (k1, v1, n1) →
  ws !! S i = Some (k2, v2, n2) →
  ∃ e1 e2,
    keyDir (SetAll order d ws) !! k1 = Some e1
    ∧ keyDir (SetAll order d ws) !! k2 = Some e2
    ∧ Position e1 + TotalSize e1 < Position e2
    ∧ Position e2 = Position e1 + TotalSize e1 + 1.
Proof.
  intros Hnew Hnd Hs H1 H2.
  apply NewDiskStore_inv in Hnew as (_ & Ho & _).
  eexists _, _.
  rewrite (SetAll_entry order d ws i k1 v1 n1), (SetAll_entry order d ws (S i) k2 v2 n2)
    by (done || lia).
  split; [done|]. split; [done|]. cbn [Position TotalSize NewKeyEntry].
  rewrite (take_S_r _ _ _ H1), span_app, span_cons. change (span []) with 0. lia.
Qed.

Lemma monotonic_placement_no_wrap_witness :
  let fs := mkFileSystem ∅ ∅ in
  let ws := [("a", "1", 1700000000); ("b", "2", 1700000001)] in
  let d := SetAll LittleEndian freshStore ws in
  NewDiskStore fs "books.db" = (Some freshStore, None, (NewDiskStore fs "books.db").2)
  ∧ span ws < 2 ^ 32
  ∧ ∃ e1 e2,
      keyDir d !! "a" = Some e1 ∧ keyDir d !! "b" = Some e2
      ∧ Position e1 + TotalSize e1 < Position e2
      ∧ Position e2 = Position e1 + TotalSize e1 + 1.
Proof.
  intros fs ws d.
  assert (Hnew : NewDiskStore fs "books.db"
                 = (Some freshStore, None, (NewDiskStore fs "books.db").2))
    by (vm_compute; reflexivity).
  assert (Hnd : NoDup ws.*1.*1)
    by (apply (bool_decide_unpack _); vm_compute; exact I).
  assert (Hs : span ws < 2 ^ 32) by reflexivity.
  split; [exact Hnew|]. split; [exact Hs|].
  exact (monotonic_placement_no_wrap LittleEndian fs "books.db" freshStore None
           (NewDiskStore fs "books.db").2 ws 0 "a" "1" 1700000000 "b" "2" 1700000001
           Hnew Hnd Hs eq_refl eq_refl).
Defined.

(** One value of 2^32 - 14 bytes makes a record of 2^32 - 1 bytes: the
    cursor wraps to 0, and the next key is placed at 0, not past the end
    of the first entry. *)
Lemma monotonic_placement_wraps :
  let d := SetAll LittleEndian freshStore
             [("a", zeroString (2 ^ 32 - 14), 1700000000); ("b", "", 1700000001)] in
  ∃ e1 e2,
    keyDir d !! "a" = Some e1 ∧ keyDir d !! "b" = Some e2
    ∧ ¬ (Position e1 + TotalSize e1 < Position e2).
Proof.
  intros d. subst d.
  rewrite !SetAll_cons. unfold SetAll. cbn [foldl fst snd].
  rewrite !Set_keyDir_eq, !Set_offset_eq.
  assert (Hr : recordSize "a" (zeroString (2 ^ 32 - 14)) = 2 ^ 32 - 1).
  { unfold recordSize. rewrite len_zeroString by lia. change (len "a") with 1.
    unfold headerSize. lia. }
  rewrite Hr.
  exists (NewKeyEntry (uint32 1700000000) (offset freshStore) (uint32 (2 ^ 32 - 1))),
    (NewKeyEntry (uint32 1700000001)
       (uint32 (offset freshStore + uint32 (uint32 (2 ^ 32 - 1) + 1)))
       (uint32 (recordSize "b" ""))).
  split; [| split].
  - rewrite lookup_insert_ne by discriminate. by rewrite lookup_insert_eq.
  - by rewrite lookup_insert_eq.
  - cbn [Position TotalSize NewKeyEntry].
    change (offset freshStore) with 0.
    change (uint32 (2 ^ 32 - 1)) with (2 ^ 32 - 1).
    change (uint32 (0 + uint32 (2 ^ 32 - 1 + 1))) with 0. lia.
Qed.

(** ** Get *)

(** C3 (as amended).  On a store returned by [NewDiskStore] and driven
    by any program of calls, [Get] of a key the program never wrote
    returns the empty string and leaves the store as it is; a key whose
    stored value is the empty string reads as the empty string too (on
    the first record of a new store, where the read is aligned), so the
    two outcomes are the same. *)
Theorem absent_key_reads_as_empty_value order fs fileName d0 err fs' ops d key :
  NewDiskStore fs fileName = (Some d0, err, fs') →
  run order d0 ops = Some d →
  key ∉ written ops →
  DiskStore_Get order d key = (d, Ret "")
  ∧ (err = None → ∀ e now, len e < 2 ^ 32 - 12 →
       (DiskStore_Get order (DiskStore_Set order d0 e "" now) e).2 = Ret "").
Proof.
  intros Hnew Hrun Hk. apply NewDiskStore_inv in Hnew as (Hkd & _ & Hfresh). split.
  - apply Get_absent. rewrite (run_keyDir_other order d0 ops d key) by done.
    by rewrite Hkd.
  - intros He e now Hl. rewrite (Hfresh He). apply Get_after_first_Set.
    unfold recordSize, headerSize. change (len "") with 0. lia.
Qed.

Lemma absent_key_reads_as_empty_value_witness :
  let fs := mkFileSystem ∅ ∅ in
  let ops := [OpSet "e" "" 1700000000; OpGet "e"] in
  let d := DiskStore_Set LittleEndian freshStore "e" "" 1700000000 in
  NewDiskStore fs "books.db" = (Some freshStore, None, (NewDiskStore fs "books.db").2)
  ∧ (∃ d', run LittleEndian freshStore ops = Some d'
       ∧ DiskStore_Get LittleEndian d' "missing" = (d', Ret ""))
  ∧ (DiskStore_Get LittleEndian d "e").2 = Ret "".
Proof.
  intros fs ops d.
  assert (Hnew : NewDiskStore fs "books.db"
                 = (Some freshStore, None, (NewDiskStore fs "books.db").2))
    by (vm_compute; reflexivity).
  assert (Hrun : run LittleEndian freshStore ops
                 = Some (DiskStore_Get LittleEndian d "e").1)
    by (vm_compute; reflexivity).
  assert (Hk : "missing" ∉ written ops)
    by (apply (bool_decide_unpack _); vm_compute; exact I).
  destruct (absent_key_reads_as_empty_value LittleEndian fs "books.db" freshStore None
              (NewDiskStore fs "books.db").2 ops (DiskStore_Get LittleEndian d "e").1
              "missing" Hnew Hrun Hk) as [Hget Hempty].
  split; [exact Hnew|]. split.
  - exists (DiskStore_Get LittleEndian d "e").1. split; [exact Hrun | exact Hget].
  - apply (Hempty eq_refl "e" 1700000000). reflexivity.
Defined.

(** After [Set("e","")], [Get("missing")] and [Get("e")] return the same
    thing, the empty string. *)
Lemma absence_conflated_with_empty_value :
  let d := DiskStore_Set LittleEndian freshStore "e" "" 1700000000 in
  keyDir d !! "missing" = None
  ∧ (DiskStore_Get LittleEndian d "missing").2 = Ret ""
  ∧ (DiskStore_Get LittleEndian d "e").2 = Ret ""
  ∧ (DiskStore_Get LittleEndian d "missing").2 = (DiskStore_Get LittleEndian d "e").2.
Proof. vm_compute. by repeat split. Qed.

(** ** After Close *)

(** C4 (as amended).  After [Close] returned true, and after any further
    calls that did not panic, [Get] returns the empty string for a key
    that is not in the key directory and panics with "Get() error during
    Seek" for a key that is; [Set] does not panic and reports nothing:
    its write fails with the closed-file error, which is dropped, the
    file stays as it was, and the key directory and the write cursor are
    updated all the same. *)
Theorem closed_store_behaviour order d d1 ops d2 :
  DiskStore_Close d = (d1, true) →
  run order d1 ops = Some d2 →
  (∀ key,
     DiskStore_Get order d2 key
     = (d2, match keyDir d2 !! key with
            | Some _ => Panic "Get() error during Seek"
            | None => Ret ""
            end))
  ∧ (∀ key value now,
       let d3 := DiskStore_Set order d2 key value now in
       file d3 = file d2
       ∧ (file_Write (file d2) (encodeKV order (uint32 now) key value).2).2
           = (0, Some ErrClosed)
       ∧ keyDir d3 !! key
           = Some (NewKeyEntry (uint32 now) (offset d2) (uint32 (recordSize key value)))
       ∧ offset d3 = (offset d2 + recordSize key value + 1) mod 2 ^ 32).
Proof.
  intros Hc Hr.
  assert (Hcl : storeClosed d2 = true)
    by (apply (run_closed order d1 ops); [by apply (Close_true_closed d)|done]).
  split.
  - intros key. by apply Get_closed.
  - intros key value now d3. subst d3.
    destruct (Set_closed order d2 key value now Hcl) as [Hf Hw].
    rewrite Set_keyDir_eq, lookup_insert_eq, Set_offset_eq, uint32_advance.
    by repeat split.
Qed.

Lemma closed_store_behaviour_witness :
  let d := DiskStore_Set LittleEndian freshStore "a" "1" 1700000000 in
  let d1 := (DiskStore_Close d).1 in
  let d2 := DiskStore_Set LittleEndian d1 "b" "2" 1700000001 in
  DiskStore_Close d = (d1, true)
  ∧ run LittleEndian d1 [OpSet "b" "2" 1700000001; OpGet "zzz"] = Some d2
  ∧ DiskStore_Get LittleEndian d2 "b" = (d2, Panic "Get() error during Seek")
  ∧ DiskStore_Get LittleEndian d2 "zzz" = (d2, Ret "")
  ∧ file (DiskStore_Set LittleEndian d2 "c" "3" 1700000002) = file d2.
Proof.
  intros d d1 d2.
  assert (Hc : DiskStore_Close d = (d1, true)) by reflexivity.
  assert (Hr : run LittleEndian d1 [OpSet "b" "2" 1700000001; OpGet "zzz"] = Some d2)
    by (vm_compute; reflexivity).
  destruct (closed_store_behaviour LittleEndian d d1
              [OpSet "b" "2" 1700000001; OpGet "zzz"] d2 Hc Hr) as [Hget Hset].
  split; [exact Hc|]. split; [exact Hr|].
  split; [exact (Hget "b")|]. split; [exact (Hget "zzz")|].
  exact (proj1 (Hset "c" "3" 1700000002)).
Defined.

(** After [Set("a","1")] and a [Close] that returns true, [Get("a")]
    panics. *)
Lemma Get_after_Close_panics :
  let d := DiskStore_Set LittleEndian freshStore "a" "1" 1700000000 in
  (DiskStore_Close d).2 = true
  ∧ (DiskStore_Get LittleEndian (DiskStore_Close d).1 "a").2
    = Panic "Get() error during Seek".
Proof. vm_compute. by split. Qed.

(** ** NewDiskStore *)

(** C9.  [NewDiskStore] always returns a store (never the nil pointer)
    with an empty key directory and write cursor 0.  When the file
    cannot be created, the error comes with a store whose file is nil:
    every write, seek, read and close on it fails.  When it can, the
    file is left empty whatever it held before, and nothing of an
    earlier log reaches the key directory. *)
Theorem NewDiskStore_always_returns_a_store fs fileName :
  let r := NewDiskStore fs fileName in
  ∃ d, r.1.1 = Some d ∧ keyDir d = ∅ ∧ offset d = 0
    ∧ if decide (fileName ∈ fs_denied fs)
      then r.1.2 = Some ErrCreate ∧ r.2 = fs ∧ file d = None
           ∧ (∀ b, file_Write (file d) b = (None, (0, Some ErrInvalid)))
           ∧ (∀ o w, file_Seek (file d) o w = (None, (0, Some ErrInvalid)))
           ∧ (∀ b, file_Read (file d) b = (None, b, (0, Some ErrInvalid)))
           ∧ DiskStore_Close d = (d, false)
      else r.1.2 = None ∧ file d = Some (mkFile false [] 0)
           ∧ fs_files r.2 !! fileName = Some []
           ∧ fs_files r.2 = <[fileName := []]> (fs_files fs)
           ∧ fs_denied r.2 = fs_denied fs.
Proof.
  intros r. subst r. unfold NewDiskStore, os_Create.
  case_decide; eexists; (split; [done|]); cbn.
  - by repeat split.
  - repeat split; try done. apply lookup_insert_eq.
Qed.

(** ** MemoryStore *)

(** C10.  On a memory store built by any run of [Set] calls, [Get] of a
    key that was never set returns the zero-value entry, the same result
    as after setting that key to the zero-value entry: the result type
    is a bare [KeyEntry], with no sign of absence.  [Close] returns
    true. *)
Theorem MemoryStore_Get_has_no_absence kvs key :
  key ∉ kvs.*1 →
  let m := MemoryStore_SetAll NewMemoryStore kvs in
  MemoryStore_Get m key = zeroKeyEntry
  ∧ MemoryStore_Get (MemoryStore_Set m key zeroKeyEntry) key = MemoryStore_Get m key
  ∧ MemoryStore_Close m = true
  ∧ MemoryStore_Close (MemoryStore_Set m key zeroKeyEntry) = true.
Proof.
  intros Hk m. subst m. unfold MemoryStore_Get.
  rewrite MemoryStore_SetAll_other by done. cbn.
  rewrite lookup_empty, lookup_insert_eq. by repeat split.
Qed.

Lemma MemoryStore_Get_has_no_absence_witness :
  let kvs := [("x", mkKeyEntry 1700000000 0 14)] in
  let m := MemoryStore_SetAll NewMemoryStore kvs in
  ("y" ∉ kvs.*1)
  ∧ MemoryStore_Get m "y" = zeroKeyEntry
  ∧ MemoryStore_Get (MemoryStore_Set m "y" zeroKeyEntry) "y" = MemoryStore_Get m "y"
  ∧ MemoryStore_Close m = true
  ∧ MemoryStore_Close (MemoryStore_Set m "y" zeroKeyEntry) = true.
Proof.
  intros kvs m.
  assert (Hk : "y" ∉ kvs.*1)
    by (apply (bool_decide_unpack _); vm_compute; exact I).
  split; [exact Hk|].
  exact (MemoryStore_Get_has_no_absence kvs "y" Hk).
Defined.

(* ================================================================== *)
(** * More on files *)

Lemma file_Seek_keeps f o w :
  contents <$> (file_Seek f o w).1 = contents <$> f
  ∧ closed <$> (file_Seek f o w).1 = closed <$> f.
Proof.
  unfold file_Seek. destruct f as [fl|]; [|done].
  destruct (closed fl) eqn:Hc; [done|].
  repeat case_decide; cbn; by rewrite ?Hc.
Qed.

Lemma file_Read_keeps f buf :
  contents <$> (file_Read f buf).1.1 = contents <$> f
  ∧ closed <$> (file_Read f buf).1.1 = closed <$> f.
Proof.
  unfold file_Read. destruct f as [fl|]; [|done].
  destruct (closed fl) eqn:Hc; [done|].
  destruct buf as [|b buf]; [done|].
  destruct (take _ _); cbn; by rewrite ?Hc.
Qed.

Lemma length_pwrite old at_ b :
  length (pwrite old at_ b)
  = Nat.max (length old) (Z.to_nat at_ + length b).
Proof.
  unfold pwrite. rewrite !length_app, length_take, length_replicate, length_drop. lia.
Qed.

Lemma pwrite_middle a b c : pwrite (a ++ b) (blen a) c = a ++ c ++ drop (length c) b.
Proof.
  unfold pwrite, blen. rewrite Nat2Z.id, take_app_length.
  replace (length a - length (a ++ b))%nat with 0%nat by (rewrite length_app; lia).
  by rewrite drop_app_add.
Qed.

Lemma file_Read_prefix c rest buf :
  c ≠ [] → length buf = length c →
  file_Read (Some (mkFile false (c ++ rest) 0)) buf
  = (Some (mkFile false (c ++ rest) (blen c)), c, (blen c, None)).
Proof.
  intros Hc Hl. unfold file_Read. cbn [closed contents cursor].
  destruct buf as [|b0 buf]; [by destruct c|].
  change (Z.to_nat 0) with 0%nat. rewrite drop_0, Hl, take_app_length.
  destruct c as [|c0 c]; [done|].
  rewrite <- Hl, drop_all, app_nil_r. by rewrite Z.add_0_l.
Qed.

Section More.
Variable order : ByteOrder.

(** ** What Get and Close leave alone *)

Lemma Get_frame d key :
  let d' := (DiskStore_Get order d key).1 in
  keyDir d' = keyDir d
  ∧ offset d' = offset d
  ∧ contents <$> file d' = contents <$> file d
  ∧ closed <$> file d' = closed <$> file d.
Proof.
  intros d'. subst d'. unfold DiskStore_Get.
  destruct (keyDir d !! key) as [e|]; [|done].
  pose proof (file_Seek_keeps (file d) (Position e) 0) as [Hs1 Hs2].
  destruct (file_Seek _ _ _) as [f1 [n1 [e1|]]]; [done|].
  pose proof (file_Read_keeps f1 (make_bytes (TotalSize e))) as [Hr1 Hr2].
  destruct (file_Read _ _) as [[f2 b2] [n2 [e2|]]]; cbn in *.
  - repeat split; congruence.
  - destruct (decodeKV _ _) as [[[? ?] ?]|]; cbn; repeat split; congruence.
Qed.

Lemma Close_frame d :
  let r := DiskStore_Close d in
  r.2 = match file d with Some fl => negb (closed fl) | None => false end
  ∧ keyDir r.1 = keyDir d
  ∧ offset r.1 = offset d
  ∧ contents <$> file r.1 = contents <$> file d
  ∧ DiskStore_Close r.1 = (r.1, false).
Proof.
  intros r. subst r. unfold DiskStore_Close, file_Close.
  destruct d as [[[c bs cur]|] kd o]; cbn; [|done].
  destruct c; cbn; done.
Qed.

Lemma Get_first_record d k v ts rest cur :
  0 ≤ ts < 2 ^ 32 → recordSize k v < 2 ^ 32 →
  file d = Some (mkFile false ((encodeKV order ts k v).2 ++ rest) cur) →
  keyDir d !! k = Some (NewKeyEntry ts 0 (recordSize k v)) →
  DiskStore_Get order d k
  = (mkDiskStore
       (Some (mkFile false ((encodeKV order ts k v).2 ++ rest) (recordSize k v)))
       (keyDir d) (offset d),
     Ret v).
Proof.
  intros Hts Hs Hf Hk.
  pose proof (recordSize_pos k v) as Hp. unfold headerSize in Hp.
  pose proof (len_nonneg k). pose proof (len_nonneg v).
  assert (Hl : len k < 2 ^ 32 ∧ len v < 2 ^ 32)
    by (unfold recordSize, headerSize in *; lia).
  unfold DiskStore_Get. rewrite Hk, Hf.
  cbn [Position TotalSize NewKeyEntry].
  unfold file_Seek. cbn [closed contents cursor].
  rewrite decide_True by done. rewrite decide_True by done.
  set (bytes := (encodeKV order ts k v).2).
  assert (Hb : blen bytes = recordSize k v) by apply encodeKV_length.
  rewrite file_Read_prefix.
  - unfold bytes. rewrite decodeKV_encodeKV by lia. by rewrite encodeKV_length.
  - intros E. rewrite E in Hb. change (blen []) with 0 in Hb. lia.
  - pose proof (make_bytes_length (recordSize k v)). unfold blen in *. lia.
Qed.

(** ** Programs of calls *)

Lemma step_dom d o d' :
  step order d o = Some d' →
  dom (keyDir d') = dom (keyDir d) ∪ list_to_set (written [o]).
Proof.
  destruct o as [k v n|k|]; simpl; intros Hs.
  - injection Hs as <-.
    rewrite Set_keyDir_eq, dom_insert_L, ?list_to_set_cons, ?list_to_set_nil.
    by rewrite (right_id_L ∅ (∪)), (comm_L (∪)).
  - pose proof (Get_keyDir order d k) as Hg.
    destruct (DiskStore_Get order d k) as [d1 [r|m]]; [|done].
    injection Hs as <-. simpl in Hg.
    by rewrite Hg, ?list_to_set_nil, (right_id_L ∅ (∪)).
  - injection Hs as <-. by rewrite Close_keyDir, ?list_to_set_nil, (right_id_L ∅ (∪)).
Qed.

Lemma run_dom d ops d' :
  run order d ops = Some d' →
  dom (keyDir d') = dom (keyDir d) ∪ list_to_set (written ops).
Proof.
  revert d. induction ops as [|o ops IH]; intros d Hr.
  - injection Hr as <-. cbn [written]. by rewrite list_to_set_nil, (right_id_L ∅ (∪)).
  - simpl in Hr. destruct (step order d o) as [d1|] eqn:Hs; [|done].
    rewrite (IH d1 Hr), (step_dom d o d1 Hs), (written_cons o ops).
    by rewrite list_to_set_app_L, (assoc_L (∪)).
Qed.

Lemma logLength_Set d key value now :
  logLength d ≤ logLength (DiskStore_Set order d key value now).
Proof.
  unfold logLength. rewrite Set_file_eq. unfold file_Write.
  destruct (file d) as [fl|]; [|done]. destruct (closed fl); [done|].
  cbn [fst contents]. unfold blen. rewrite length_pwrite. lia.
Qed.

Lemma logLength_Get d key :
  logLength (DiskStore_Get order d key).1 = logLength d.
Proof.
  pose proof (Get_frame d key) as (_ & _ & Hc & _).
  unfold logLength. cbn in Hc.
  destruct (file (DiskStore_Get order d key).1), (file d); cbn in Hc; congruence.
Qed.

Lemma logLength_Close d : logLength (DiskStore_Close d).1 = logLength d.
Proof.
  pose proof (Close_frame d) as (_ & _ & _ & Hc & _).
  unfold logLength. cbn in Hc.
  destruct (file (DiskStore_Close d).1), (file d); cbn in Hc; congruence.
Qed.

Lemma decodeKV_nil : decodeKV order [] = None.
Proof. done. Qed.

Lemma cursorInLog_Set d key value now :
  cursorInLog d → cursorInLog (DiskStore_Set order d key value now).
Proof.
  unfold cursorInLog. rewrite Set_file_eq. unfold file_Write.
  destruct (file d) as [fl|]; [|done]. destruct (closed fl); [done|].
  cbn [fst contents cursor]. unfold blen. rewrite length_pwrite. lia.
Qed.

Lemma cursorInLog_Get d key d' r :
  cursorInLog d → DiskStore_Get order d key = (d', Ret r) → cursorInLog d'.
Proof.
  unfold cursorInLog, DiskStore_Get. intros Hi.
  destruct (keyDir d !! key) as [e|]; [|by intros [= <-]].
  unfold file_Seek. destruct (file d) as [fl|]; [|done].
  destruct (closed fl); [done|]. rewrite decide_True by done.
  case_decide as Hp; [|done].
  unfold file_Read. cbn [closed contents cursor].
  destruct (make_bytes (TotalSize e)) as [|b0 buf] eqn:Eb.
  - by rewrite decodeKV_nil.
  - destruct (take _ _) as [|g0 got] eqn:Eg; [done|].
    destruct (decodeKV _ _) as [[[? ?] ?]|]; [|done].
    intros [= <- _]. cbn [file cursor contents].
    assert (Hl : length (g0 :: got) = length (take (length (b0 :: buf))
                   (drop (Z.to_nat (Position e)) (contents fl)))) by (by rewrite Eg).
    rewrite length_take, length_drop in Hl. unfold blen. cbn [length] in *. lia.
Qed.

Lemma cursorInLog_Close d : cursorInLog d → cursorInLog (DiskStore_Close d).1.
Proof.
  unfold cursorInLog, DiskStore_Close, file_Close.
  destruct (file d) as [fl|]; [|done]. by destruct (closed fl).
Qed.

Lemma run_cursorInLog d ops d' :
  cursorInLog d → run order d ops = Some d' → cursorInLog d'.
Proof.
  revert d. induction ops as [|o ops IH]; intros d Hi Hr.
  - by injection Hr as <-.
  - simpl in Hr. destruct (step order d o) as [d1|] eqn:Hs; [|done].
    apply (IH d1); [|done].
    destruct o as [k v n|k|]; simpl in Hs.
    + injection Hs as <-. by apply cursorInLog_Set.
    + destruct (DiskStore_Get order d k) as [d2 [r|m]] eqn:Eg; [|done].
      injection Hs as <-. by apply (cursorInLog_Get d k d2 r).
    + injection Hs as <-. by apply cursorInLog_Close.
Qed.

Lemma run_logLength d ops d' :
  run order d ops = Some d' → logLength d ≤ logLength d'.
Proof.
  revert d. induction ops as [|o ops IH]; intros d Hr.
  - by injection Hr as <-.
  - simpl in Hr. destruct (step order d o) as [d1|] eqn:Hs; [|done].
    etrans; [|by apply (IH d1)].
    destruct o as [k v n|k|]; simpl in Hs.
    + injection Hs as <-. apply logLength_Set.
    + pose proof (logLength_Get d k) as Hg.
      destruct (DiskStore_Get order d k) as [d2 [r|m]]; [|done].
      injection Hs as <-. simpl in Hg. lia.
    + injection Hs as <-. by rewrite logLength_Close.
Qed.

Lemma run_file_stays d ops d' :
  run order d ops = Some d' → is_Some (file d) → is_Some (file d').
Proof.
  revert d. induction ops as [|o ops IH]; intros d Hr Hf.
  - by injection Hr as <-.
  - simpl in Hr. destruct (step order d o) as [d1|] eqn:Hs; [|done].
    apply (IH d1); [done|].
    destruct o as [k v n|k|]; simpl in Hs.
    + injection Hs as <-. rewrite Set_file_eq. unfold file_Write.
      destruct (file d) as [fl|]; [|by destruct Hf]. by destruct (closed fl).
    + pose proof (Get_frame d k) as (_ & _ & Hc & _).
      destruct (DiskStore_Get order d k) as [d2 [r|m]]; [|done].
      injection Hs as <-. cbn in Hc.
      destruct (file d2); [done|]. destruct Hf as [fl Hf]. by rewrite Hf in Hc.
    + injection Hs as <-.
      pose proof (Close_frame d) as (_ & _ & _ & Hc & _). cbn in Hc.
      destruct (file (DiskStore_Close d).1); [done|].
      destruct Hf as [fl Hf]. by rewrite Hf in Hc.
Qed.

(** ** The log of a run of writes *)

Lemma logBytes_cons k v n ws :
  logBytes order ((k, v, n) :: ws)
  = (encodeKV order (uint32 n) k v).2 ++ logBytes order ws.
Proof. done. Qed.

Lemma logBytes_app ws1 ws2 :
  logBytes order (ws1 ++ ws2) = logBytes order ws1 ++ logBytes order ws2.
Proof.
  induction ws1 as [|[[k v] n] ws1 IH]; [done|].
  rewrite <- app_comm_cons, !logBytes_cons, IH. by rewrite app_assoc.
Qed.

Lemma span_logBytes ws : span ws = blen (logBytes order ws) + Z.of_nat (length ws).
Proof.
  induction ws as [|[[k v] n] ws IH]; [done|].
  rewrite span_cons, logBytes_cons, blen_app, encodeKV_length, IH.
  cbn [length]. lia.
Qed.

Lemma SetAll_app d ws1 ws2 :
  SetAll order d (ws1 ++ ws2) = SetAll order (SetAll order d ws1) ws2.
Proof. unfold SetAll. apply foldl_app. Qed.

Lemma SetAll_file d c ws :
  file d = Some (mkFile false c (blen c)) →
  file (SetAll order d ws)
  = Some (mkFile false (c ++ logBytes order ws) (blen (c ++ logBytes order ws))).
Proof.
  revert d c. induction ws as [|[[k v] n] ws IH]; intros d c Hf.
  - cbn. by rewrite app_nil_r.
  - rewrite SetAll_cons. cbn [fst snd].
    rewrite (IH _ (c ++ (encodeKV order (uint32 n) k v).2)).
    + by rewrite logBytes_cons, <- app_assoc.
    + rewrite Set_file_eq, Hf, file_Write_append. cbn [fst]. by rewrite blen_app.
Qed.

Lemma SetAll_offset d ws :
  0 ≤ offset d < 2 ^ 32 →
  offset (SetAll order d ws) = (offset d + span ws) mod 2 ^ 32.
Proof.
  revert d. induction ws as [|[[k v] n] ws IH]; intros d Ho.
  - cbn. rewrite Z.add_0_r. by rewrite Z.mod_small.
  - rewrite SetAll_cons. cbn [fst snd]. rewrite IH.
    + rewrite Set_offset_eq, uint32_advance, span_cons.
      rewrite Z.add_mod_idemp_l by lia. f_equal. lia.
    + rewrite Set_offset_eq, uint32_advance. apply Z.mod_pos_bound. lia.
Qed.

(** ** A store whose file could not be created *)

Lemma Get_nil_file d key :
  file d = None →
  DiskStore_Get order d key
  = (d, match keyDir d !! key with
        | Some _ => Panic "Get() error during Seek"
        | None => Ret ""
        end).
Proof.
  intros Hf. unfold DiskStore_Get. destruct (keyDir d !! key); [|done].
  by rewrite Hf.
Qed.

Lemma step_nil_file d o d' :
  file d = None → step order d o = Some d' → file d' = None.
Proof.
  intros Hf. destruct o as [k v n|k|]; simpl.
  - intros [= <-]. by rewrite Set_file_eq, Hf.
  - rewrite Get_nil_file by done. destruct (keyDir d !! k); [done|]. by intros [= <-].
  - intros [= <-]. unfold DiskStore_Close. by rewrite Hf.
Qed.

Lemma run_nil_file d ops d' :
  file d = None → run order d ops = Some d' → file d' = None.
Proof.
  revert d. induction ops as [|o ops IH]; intros d Hf Hr.
  - by injection Hr as <-.
  - simpl in Hr. destruct (step order d o) as [d1|] eqn:Hs; [|done].
    apply (IH d1); [|done]. by apply (step_nil_file d o).
Qed.

End More.

(* ================================================================== *)
(** * Further properties of the two stores *)

(** ** Get *)

(** X1.  [Get] changes nothing of the store but the file offset: the key
    directory, the write cursor, the bytes of the file and whether it is
    closed are the same after the call, whether it returns or panics. *)
Theorem Get_only_moves_the_file_offset order d key :
  let d' := (DiskStore_Get order d key).1 in
  keyDir d' = keyDir d
  ∧ offset d' = offset d
  ∧ contents <$> file d' = contents <$> file d
  ∧ closed <$> file d' = closed <$> file d.
Proof. apply Get_frame. Qed.

(** X2.  On an open file, [Get] of a key whose entry starts at or past
    the end of the log (and asks for at least one byte) panics with
    "Get() error during Read": the seek succeeds and moves the file
    offset to the entry's position, the read meets the end of file. *)
Theorem Get_past_end_panics order d fl key e :
  file d = Some fl → closed fl = false →
  keyDir d !! key = Some e →
  blen (contents fl) ≤ Position e → 0 < TotalSize e →
  DiskStore_Get order d key
  = (mkDiskStore (Some (mkFile false (contents fl) (Position e))) (keyDir d) (offset d),
     Panic "Get() error during Read").
Proof.
  intros Hf Hc Hk Hpos Hsz. pose proof (blen_nonneg (contents fl)).
  unfold DiskStore_Get. rewrite Hk, Hf. unfold file_Seek. rewrite Hc.
  rewrite decide_True by done. rewrite decide_True by lia.
  unfold file_Read. cbn [closed contents cursor].
  unfold make_bytes. destruct (Z.to_nat (TotalSize e)) as [|n] eqn:En; [lia|].
  cbn [replicate]. rewrite (drop_ge (contents fl)) by (unfold blen in *; lia).
  by rewrite take_nil.
Qed.

Lemma Get_past_end_panics_witness :
  let ops := [OpSet "a" "1" 1700000000; OpSet "b" "2" 1700000001; OpGet "a";
              OpSet "c" "3" 1700000002] in
  let d := default freshStore (run LittleEndian freshStore ops) in
  run LittleEndian freshStore ops = Some d
  ∧ (DiskStore_Get LittleEndian d "c").2 = Panic "Get() error during Read".
Proof.
  intros ops d. split; [vm_compute; reflexivity|].
  pose (fl := default (mkFile false [] 0) (file d)).
  pose (e := default zeroKeyEntry (keyDir d !! "c")).
  assert (Hf : file d = Some fl) by (vm_compute; reflexivity).
  assert (Hc : closed fl = false) by (vm_compute; reflexivity).
  assert (Hk : keyDir d !! "c" = Some e) by (vm_compute; reflexivity).
  assert (Hp : blen (contents fl) ≤ Position e) by (vm_compute; discriminate).
  assert (Hs : 0 < TotalSize e) by (vm_compute; reflexivity).
  exact (f_equal snd (Get_past_end_panics LittleEndian d fl "c" e Hf Hc Hk Hp Hs)).
Defined.

(** X3.  On a new store, the first record written stays readable: after
    any further [Set] calls on other keys, [Get] of the first key returns
    the first value, provided the record is shorter than 2^32 bytes. *)
Theorem first_record_stays_readable order key value now ws :
  recordSize key value < 2 ^ 32 →
  key ∉ ws.*1.*1 →
  (DiskStore_Get order (SetAll order freshStore ((key, value, now) :: ws)) key).2
  = Ret value.
Proof.
  intros Hs Hk.
  rewrite (Get_first_record order _ key value (uint32 now) (logBytes order ws)
             (blen (logBytes order ((key, value, now) :: ws)))); [done| |done| |].
  - unfold uint32. apply Z.mod_pos_bound. lia.
  - by rewrite (SetAll_file order freshStore []).
  - rewrite SetAll_cons. cbn [fst snd]. rewrite SetAll_keyDir_other by done.
    rewrite Set_keyDir_eq, lookup_insert_eq. change (offset freshStore) with 0.
    pose proof (recordSize_pos key value) as Hp. unfold headerSize in Hp.
    by rewrite (uint32_small (recordSize key value)) by lia.
Qed.

Lemma first_record_stays_readable_witness :
  let ws := [("b", "2", 1700000001); ("c", "", 1700000002)] in
  recordSize "a" "1" < 2 ^ 32
  ∧ (DiskStore_Get BigEndian
       (SetAll BigEndian freshStore (("a", "1", 1700000000) :: ws)) "a").2
    = Ret "1".
Proof.
  intros ws.
  assert (Hs : recordSize "a" "1" < 2 ^ 32) by reflexivity.
  assert (Hk : "a" ∉ ws.*1.*1)
    by (apply (bool_decide_unpack _); vm_compute; exact I).
  split; [exact Hs|].
  exact (first_record_stays_readable BigEndian "a" "1" 1700000000 ws Hs Hk).
Defined.

(** X4.  [Get] and [Set] share one file offset.  After two writes on a
    new store, [Get] of the first key returns its value and leaves the
    file offset at the end of the first record; the next [Set] then
    writes its record there, over the second record, instead of
    appending it. *)
Theorem Set_after_Get_overwrites order k1 v1 n1 k2 v2 n2 k3 v3 n3 :
  recordSize k1 v1 < 2 ^ 32 →
  k1 ≠ k2 →
  let rec1 := (encodeKV order (uint32 n1) k1 v1).2 in
  let rec2 := (encodeKV order (uint32 n2) k2 v2).2 in
  let rec3 := (encodeKV order (uint32 n3) k3 v3).2 in
  let d2 := DiskStore_Set order (DiskStore_Set order freshStore k1 v1 n1) k2 v2 n2 in
  let g := DiskStore_Get order d2 k1 in
  let d3 := DiskStore_Set order g.1 k3 v3 n3 in
  g.2 = Ret v1
  ∧ file g.1 = Some (mkFile false (rec1 ++ rec2) (blen rec1))
  ∧ file d3
    = Some (mkFile false (rec1 ++ rec3 ++ drop (length rec3) rec2)
              (blen rec1 + blen rec3)).
Proof.
  intros Hs Hne rec1 rec2 rec3 d2 g d3.
  pose proof (recordSize_pos k1 v1) as Hp. unfold headerSize in Hp.
  assert (Hg : g = (mkDiskStore (Some (mkFile false (rec1 ++ rec2) (recordSize k1 v1)))
                      (keyDir d2) (offset d2), Ret v1)).
  { subst g. apply (Get_first_record order d2 k1 v1 (uint32 n1) rec2
                      (recordSize k1 v1 + recordSize k2 v2)); [|done| |].
    - unfold uint32. apply Z.mod_pos_bound. lia.
    - subst d2. by rewrite Set_Set_fresh_file.
    - subst d2. rewrite Set_keyDir_eq, lookup_insert_ne by done.
      rewrite Set_keyDir_eq, lookup_insert_eq. change (offset freshStore) with 0.
      by rewrite (uint32_small (recordSize k1 v1)) by lia. }
  assert (Hb : recordSize k1 v1 = blen rec1) by (unfold rec1; by rewrite encodeKV_length).
  rewrite Hb in Hg. subst d3. rewrite Hg. cbn [fst snd].
  split; [done|]. split; [done|].
  rewrite Set_file_eq. cbn [file]. fold rec3.
  unfold file_Write. cbn [closed contents cursor fst].
  by rewrite pwrite_middle.
Qed.

Lemma Set_after_Get_overwrites_witness :
  let d2 := DiskStore_Set LittleEndian
              (DiskStore_Set LittleEndian freshStore "a" "1" 1700000000)
              "b" "2" 1700000001 in
  let g := DiskStore_Get LittleEndian d2 "a" in
  let d3 := DiskStore_Set LittleEndian g.1 "c" "3" 1700000002 in
  recordSize "a" "1" < 2 ^ 32
  ∧ g.2 = Ret "1"
  ∧ file d3
    = Some (mkFile false
              ((encodeKV LittleEndian (uint32 1700000000) "a" "1").2
                 ++ (encodeKV LittleEndian (uint32 1700000002) "c" "3").2)
              28).
Proof.
  intros d2 g d3.
  assert (Hs : recordSize "a" "1" < 2 ^ 32) by reflexivity.
  assert (Hne : "a" ≠ "b") by discriminate.
  destruct (Set_after_Get_overwrites LittleEndian "a" "1" 1700000000
              "b" "2" 1700000001 "c" "3" 1700000002 Hs Hne) as (Hg & _ & Hf).
  split; [exact Hs|]. split; [exact Hg|]. exact Hf.
Defined.

(** ** Close *)

(** X5.  [Close] returns true exactly when the store has a file that is
    not yet closed; it keeps the key directory, the write cursor and the
    bytes of the file; and a second [Close] changes nothing and returns
    false. *)
Theorem Close_once d :
  let r := DiskStore_Close d in
  r.2 = match file d with Some fl => negb (closed fl) | None => false end
  ∧ keyDir r.1 = keyDir d
  ∧ offset r.1 = offset d
  ∧ contents <$> file r.1 = contents <$> file d
  ∧ DiskStore_Close r.1 = (r.1, false).
Proof. apply Close_frame. Qed.

(** ** Programs of calls *)

(** X6.  Keys are only ever added.  After a program of [Set], [Get] and
    [Close] calls that did not panic, the keys of the directory are the
    keys it had before together with the keys the program wrote, and the
    entry of every key the program did not write is unchanged. *)
Theorem run_only_adds_written_keys order d ops d' :
  run order d ops = Some d' →
  dom (keyDir d') = dom (keyDir d) ∪ list_to_set (written ops)
  ∧ ∀ key, key ∉ written ops → keyDir d' !! key = keyDir d !! key.
Proof.
  intros Hr. split; [by apply (run_dom order d ops)|].
  intros key Hk. by apply (run_keyDir_other order d ops).
Qed.

Lemma run_only_adds_written_keys_witness :
  let ops := [OpSet "a" "1" 1700000000; OpGet "a"; OpClose; OpSet "b" "2" 1700000001] in
  let d' := default freshStore (run LittleEndian freshStore ops) in
  run LittleEndian freshStore ops = Some d'
  ∧ dom (keyDir d') = dom (keyDir freshStore) ∪ list_to_set (written ops)
  ∧ keyDir d' !! "c" = keyDir freshStore !! "c".
Proof.
  intros ops d'.
  assert (Hr : run LittleEndian freshStore ops = Some d') by (vm_compute; reflexivity).
  assert (Hk : "c" ∉ written ops)
    by (apply (bool_decide_unpack _); vm_compute; exact I).
  destruct (run_only_adds_written_keys LittleEndian freshStore ops d' Hr) as [Hd Ho].
  split; [exact Hr|]. split; [exact Hd|]. exact (Ho "c" Hk).
Defined.

(** X7.  The log never shrinks: after a program that did not panic, the
    file holds at least as many bytes as before. *)
Theorem log_never_shrinks order d ops d' :
  run order d ops = Some d' → logLength d ≤ logLength d'.
Proof. apply run_logLength. Qed.

Lemma log_never_shrinks_witness :
  let ops := [OpSet "a" "1" 1700000000; OpSet "b" "2" 1700000001; OpGet "a";
              OpSet "c" "3" 1700000002] in
  let d' := default freshStore (run LittleEndian freshStore ops) in
  run LittleEndian freshStore ops = Some d'
  ∧ logLength (DiskStore_Set LittleEndian freshStore "a" "1" 1700000000) ≤ logLength d'.
Proof.
  intros ops d'.
  split; [vm_compute; reflexivity|].
  apply (log_never_shrinks LittleEndian
           (DiskStore_Set LittleEndian freshStore "a" "1" 1700000000)
           [OpSet "b" "2" 1700000001; OpGet "a"; OpSet "c" "3" 1700000002] d').
  vm_compute; reflexivity.
Defined.

(** X8.  On a new store, whatever program runs without a panic, the file
    stays there and its offset stays between 0 and the end of the log:
    no write lands past the end, so the file never gets a hole. *)
Theorem file_offset_stays_in_log order ops d :
  run order freshStore ops = Some d →
  ∃ fl, file d = Some fl ∧ 0 ≤ cursor fl ≤ blen (contents fl).
Proof.
  intros Hr.
  assert (Hi : cursorInLog d) by (by apply (run_cursorInLog order freshStore ops)).
  destruct (run_file_stays order freshStore ops d Hr) as [fl Hf]; [done|].
  exists fl. split; [done|]. unfold cursorInLog in Hi. by rewrite Hf in Hi.
Qed.

Lemma file_offset_stays_in_log_witness :
  let ops := [OpSet "a" "1" 1700000000; OpSet "b" "2" 1700000001; OpGet "a"] in
  let d := default freshStore (run LittleEndian freshStore ops) in
  run LittleEndian freshStore ops = Some d
  ∧ ∃ fl, file d = Some fl ∧ 0 ≤ cursor fl ≤ blen (contents fl).
Proof.
  intros ops d.
  assert (Hr : run LittleEndian freshStore ops = Some d) by (vm_compute; reflexivity).
  split; [exact Hr|].
  exact (file_offset_stays_in_log LittleEndian ops d Hr).
Defined.

(** ** Runs of writes *)

(** X9.  A run of [Set] calls on a new store appends: the file holds the
    encoded records one after the other in the order written (those of
    overwritten keys included), with the file offset at its end, while
    the write cursor is the length of the file plus the number of
    records written, modulo 2^32. *)
Theorem SetAll_appends_records order ws :
  let d := SetAll order freshStore ws in
  file d = Some (mkFile false (logBytes order ws) (blen (logBytes order ws)))
  ∧ offset d = (blen (logBytes order ws) + Z.of_nat (length ws)) mod 2 ^ 32.
Proof.
  intros d. subst d. split.
  - by rewrite (SetAll_file order freshStore []).
  - rewrite SetAll_offset by done. by rewrite (span_logBytes order).
Qed.

(** X10.  After a run of [Set] calls with distinct keys on a new store,
    with the write cursor not wrapped, the record of the write number
    [i] (counting from 0) lies in the file right after the records
    before it, and its entry has the size of the record but a position
    [i] bytes further. *)
Theorem entry_is_off_by_its_index order ws i key value now :
  NoDup ws.*1.*1 →
  span ws < 2 ^ 32 →
  ws !! i = Some (key, value, now) →
  let d := SetAll order freshStore ws in
  let start := blen (logBytes order (take i ws)) in
  ∃ e fl,
    keyDir d !! key = Some e ∧ file d = Some fl
    ∧ slice (contents fl) start (start + recordSize key value)
      = Some (encodeKV order (uint32 now) key value).2
    ∧ Position e = start + Z.of_nat i
    ∧ TotalSize e = recordSize key value.
Proof.
  intros Hnd Hs Hi d start. subst d start.
  rewrite (SetAll_entry order freshStore ws i key value now) by done.
  rewrite (SetAll_file order freshStore []) by done.
  eexists _, _. split; [done|]. split; [done|].
  cbn [contents Position TotalSize NewKeyEntry app]. split; [|split; [|done]].
  - rewrite <- (take_drop_middle ws i _ Hi) at 1.
    rewrite logBytes_app, logBytes_cons.
    apply slice_mid; [done|]. by rewrite encodeKV_length.
  - rewrite (span_logBytes order), length_take.
    apply lookup_lt_Some in Hi. change (offset freshStore) with 0. lia.
Qed.

Lemma entry_is_off_by_its_index_witness :
  let ws := [("a", "1", 1700000000); ("b", "22", 1700000001); ("c", "", 1700000002)] in
  let d := SetAll LittleEndian freshStore ws in
  span ws < 2 ^ 32
  ∧ ∃ e fl,
      keyDir d !! "c" = Some e ∧ file d = Some fl
      ∧ slice (contents fl) 29 (29 + recordSize "c" "")
        = Some (encodeKV LittleEndian (uint32 1700000002) "c" "").2
      ∧ Position e = 29 + Z.of_nat 2
      ∧ TotalSize e = recordSize "c" "".
Proof.
  intros ws d.
  assert (Hnd : NoDup ws.*1.*1)
    by (apply (bool_decide_unpack _); vm_compute; exact I).
  assert (Hs : span ws < 2 ^ 32) by reflexivity.
  split; [exact Hs|].
  exact (entry_is_off_by_its_index LittleEndian ws 2 "c" "" 1700000002 Hnd Hs eq_refl).
Defined.

(** X11.  In the key directory the last write of a key wins: after any
    run of [Set] calls, the entry of a key carries the time and the
    record size of the last write of that key, and as position the
    write cursor as it was when that write began. *)
Theorem keyDir_entry_of_last_write order d ws key value now ws' :
  key ∉ ws'.*1.*1 →
  keyDir (SetAll order d (ws ++ (key, value, now) :: ws')) !! key
  = Some (NewKeyEntry (uint32 now) (offset (SetAll order d ws))
            (uint32 (recordSize key value))).
Proof.
  intros Hk. rewrite SetAll_app, SetAll_cons. cbn [fst snd].
  rewrite SetAll_keyDir_other by done.
  by rewrite Set_keyDir_eq, lookup_insert_eq.
Qed.

Lemma keyDir_entry_of_last_write_witness :
  let ws := [("a", "1", 1700000000)] in
  let ws' := [("b", "3", 1700000002)] in
  keyDir (SetAll BigEndian freshStore (ws ++ ("a", "2", 1700000001) :: ws')) !! "a"
  = Some (NewKeyEntry 1700000001 15 14).
Proof.
  intros ws ws'.
  assert (Hk : "a" ∉ ws'.*1.*1)
    by (apply (bool_decide_unpack _); vm_compute; exact I).
  exact (keyDir_entry_of_last_write BigEndian freshStore ws "a" "2" 1700000001 ws' Hk).
Defined.

(** ** A store whose file could not be created *)

(** X12.  When [NewDiskStore] returns an error and the caller uses the
    store all the same, the file stays nil through any program that does
    not panic; [Get] then panics with "Get() error during Seek" for
    every key the program wrote and returns the empty string for every
    other key, and [Close] returns false. *)
Theorem store_without_file order fs fileName d0 e fs' ops d :
  NewDiskStore fs fileName = (Some d0, Some e, fs') →
  run order d0 ops = Some d →
  file d = None
  ∧ (∀ key,
       DiskStore_Get order d key
       = (d, if bool_decide (key ∈ written ops)
             then Panic "Get() error during Seek" else Ret ""))
  ∧ DiskStore_Close d = (d, false).
Proof.
  intros Hnew Hr.
  assert (Hf0 : file d0 = None ∧ keyDir d0 = ∅).
  { unfold NewDiskStore, os_Create in Hnew. case_decide; [|discriminate].
    by injection Hnew as <- _ _. }
  destruct Hf0 as [Hf0 Hk0].
  assert (Hf : file d = None) by (by apply (run_nil_file order d0 ops)).
  split; [done|]. split.
  - intros key. rewrite Get_nil_file by done. f_equal.
    pose proof (run_dom order d0 ops d Hr) as Hdom.
    rewrite Hk0, dom_empty_L, (left_id_L ∅ (∪)) in Hdom.
    case_bool_decide as Hw.
    + assert (Hin : key ∈ dom (keyDir d)) by (rewrite Hdom; by apply elem_of_list_to_set).
      apply elem_of_dom in Hin as [x Hx]. by rewrite Hx.
    + assert (Hin : key ∉ dom (keyDir d))
        by (rewrite Hdom; by rewrite elem_of_list_to_set).
      apply not_elem_of_dom in Hin. by rewrite Hin.
  - unfold DiskStore_Close. rewrite Hf. cbn. by destruct d as [? ? ?]; cbn in *; subst.
Qed.

Lemma store_without_file_witness :
  let fs := mkFileSystem ∅ {["/missing/books.db"]} in
  let d0 := mkDiskStore None ∅ 0 in
  let d := DiskStore_Set LittleEndian d0 "othello" "shakespeare" 1700000000 in
  NewDiskStore fs "/missing/books.db" = (Some d0, Some ErrCreate, fs)
  ∧ run LittleEndian d0 [OpSet "othello" "shakespeare" 1700000000] = Some d
  ∧ DiskStore_Get LittleEndian d "othello" = (d, Panic "Get() error during Seek")
  ∧ DiskStore_Get LittleEndian d "hamlet" = (d, Ret "")
  ∧ DiskStore_Close d = (d, false).
Proof.
  intros fs d0 d.
  assert (Hnew : NewDiskStore fs "/missing/books.db" = (Some d0, Some ErrCreate, fs))
    by (vm_compute; reflexivity).
  assert (Hr : run LittleEndian d0 [OpSet "othello" "shakespeare" 1700000000] = Some d)
    by reflexivity.
  destruct (store_without_file LittleEndian fs "/missing/books.db" d0 ErrCreate fs
              [OpSet "othello" "shakespeare" 1700000000] d Hnew Hr) as (_ & Hg & Hc).
  split; [exact Hnew|]. split; [exact Hr|].
  split; [exact (Hg "othello")|]. split; [exact (Hg "hamlet")|]. exact Hc.
Defined.

(** ** MemoryStore *)

(** X13.  On a memory store, [Get] after [Set] returns the value set for
    that key and what [Get] returned before for any other key; a second
    [Set] of the same key replaces the first without trace. *)
Theorem MemoryStore_Set_then_Get m key value key' value' :
  MemoryStore_Get (MemoryStore_Set m key value) key'
  = (if decide (key = key') then value else MemoryStore_Get m key')
  ∧ MemoryStore_Set (MemoryStore_Set m key value) key value'
    = MemoryStore_Set m key value'.
Proof.
  unfold MemoryStore_Get, MemoryStore_Set. cbn. split.
  - rewrite lookup_insert. by case_decide.
  - by rewrite insert_insert_eq.
Qed.

(** X14.  On a memory store the last write wins: after any run of [Set]
    calls, [Get] of a key returns the value of the last [Set] of that
    key. *)
Theorem MemoryStore_last_write_wins m kvs key value kvs' :
  key ∉ kvs'.*1 →
  MemoryStore_Get (MemoryStore_SetAll m (kvs ++ (key, value) :: kvs')) key = value.
Proof.
  intros Hk. unfold MemoryStore_Get.
  unfold MemoryStore_SetAll at 1. rewrite foldl_app. cbn [foldl fst snd].
  fold (MemoryStore_SetAll m kvs).
  fold (MemoryStore_SetAll (MemoryStore_Set (MemoryStore_SetAll m kvs) key value) kvs').
  rewrite MemoryStore_SetAll_other by done. cbn. by rewrite lookup_insert_eq.
Qed.

Lemma MemoryStore_last_write_wins_witness :
  let kvs := [("a", mkKeyEntry 1 0 14); ("b", mkKeyEntry 2 15 14)] in
  let kvs' := [("b", mkKeyEntry 4 45 14)] in
  MemoryStore_Get
    (MemoryStore_SetAll NewMemoryStore (kvs ++ ("a", mkKeyEntry 3 30 14) :: kvs')) "a"
  = mkKeyEntry 3 30 14.
Proof.
  intros kvs kvs'.
  assert (Hk : "a" ∉ kvs'.*1)
    by (apply (bool_decide_unpack _); vm_compute; exact I).
  exact (MemoryStore_last_write_wins NewMemoryStore kvs "a" (mkKeyEntry 3 30 14) kvs' Hk).
Defined.
